(** * apple2js: run loop, snapshots, ProDOS loader and disk routing

    A shallow embedding of
      - [src/js/apple2.ts]      (class [Apple2]: run, stop, getState, setState),
      - [src/js/formats/po.js]  (the ProDOS-order image loader),
      - [src/js/ui/apple2.ts]   (doLoadLocal, doLoadLocalDisk, doLoadBinary,
                                 doLoadHTTP, processHash, loadingStop,
                                 pauseRun and the end of onLoaded),
    followed by the properties of the specification that concern them.

    JavaScript numbers are modelled as [Z]: every number these functions
    compute with is an integer (millisecond timestamps, kHz, frame counters,
    byte values, offsets) far below 2^53.  [number | null] and
    [number | undefined] are [option Z]. *)

From stdpp Require Import base option list gmap strings.
From Stdlib Require Import ZArith Lia Ascii.

(** ** JavaScript values *)

Module JS.

(** Truthiness of a [number | null | undefined]: zero is falsy. *)
Definition truthy (v : option Z) : bool :=
  match v with
  | Some n => negb (n =? 0)%Z
  | None => false
  end.

(** [v || d] on a [number | undefined]. *)
Definition or_default (v : option Z) (d : Z) : Z :=
  match v with
  | Some n => if (n =? 0)%Z then d else n
  | None => d
  end.

(** [v || false] on a [boolean | undefined]. *)
Definition or_false (v : option bool) : bool :=
  match v with
  | Some b => b
  | None => false
  end.

(** [ary[i] = v]: an index past the end extends the array, the slots in
    between are holes ([hole] stands for what reading one gives). *)
Fixpoint array_set {A} (hole : A) (i : nat) (v : A) (ary : list A) : list A :=
  match i, ary with
  | O, [] => [v]
  | O, _ :: rest => v :: rest
  | S i', [] => hole :: array_set hole i' v []
  | S i', e :: rest => e :: array_set hole i' v rest
  end.

(** [buf.slice(b, e)] on an [ArrayBuffer], for [0 <= b <= e]: both ends
    are clamped to the buffer's length. *)
Definition slice {A} (b e : nat) (buf : list A) : list A :=
  take (e - b) (drop b buf).

(** [x >> n] and [x & y]: the operands are taken as 32-bit integers, the
    shift count modulo 32. *)
Definition to_int32 (x : Z) : Z := ((x + 2 ^ 31) `mod` 2 ^ 32 - 2 ^ 31)%Z.

Definition shr (x n : Z) : Z := Z.shiftr (to_int32 x) (Z.land n 31).

Definition band (x y : Z) : Z := Z.land (to_int32 x) (to_int32 y).

(** Truthiness of a [string | undefined]: the empty string is falsy. *)
Definition truthy_string (v : option string) : bool :=
  match v with
  | Some s => negb (bool_decide (s = EmptyString))
  | None => false
  end.

End JS.

(** ** Collaborators of [Apple2] whose code is in other files *)

Module CPU6502.

(** Modelled from the spec: [CpuState] of [cpu6502] (not among the
    sources), "register file and cycle counter": A, X, Y, SP (bytes),
    PC (word), the status flags and the cumulative cycle counter. *)
Record CpuState := {
  st_a : Z; st_x : Z; st_y : Z; st_sp : Z; st_pc : Z; st_sr : Z;
  st_cycles : Z
}.

(** Modelled from the spec: the CPU object of [cpu6502]: the
    registers, the cycle counter and the interrupt-pending flags. *)
Record t := {
  a : Z; x : Z; y : Z; sp : Z; pc : Z; sr : Z;
  cycles : Z;
  irq_pending : bool; nmi_pending : bool; reset_pending : bool
}.

(** Modelled from the spec: [cpu.getState()], "snapshot ... register
    file and cycle counter". *)
Definition getState (c : t) : CpuState :=
  {| st_a := a c; st_x := x c; st_y := y c; st_sp := sp c;
     st_pc := pc c; st_sr := sr c; st_cycles := cycles c |}.

(** Modelled from the spec: [cpu.setState(s)], "restore register file
    and cycle counter"; the pending-interrupt flags are not part of the
    snapshot and stay. *)
Definition setState (s : CpuState) (c : t) : t :=
  {| a := st_a s; x := st_x s; y := st_y s; sp := st_sp s;
     pc := st_pc s; sr := st_sr s; cycles := st_cycles s;
     irq_pending := irq_pending c; nmi_pending := nmi_pending c;
     reset_pending := reset_pending c |}.

End CPU6502.

Module MMU.
(** Modelled from the spec: the IIe MMU's bank state, "fully
    recoverable from 16 bits". *)
Record t := { latches : Z }.
End MMU.

Module Apple2IO.

(** Modelled from the spec: the I/O object of [apple2io] as far as the
    run loop reads it: the clock setting, the four annunciators, and the
    remaining soft-switch latches. *)
Record t := {
  kHz : Z;
  annunciators : list bool;
  latches : Z
}.

(** Modelled from the spec: [io.getKHz()], the clock frequency that
    [updateKHz(k)] has set. *)
Definition getKHz (io : t) : Z := kHz io.

(** Modelled from the spec: [io.annunciator(n)], the state of annunciator
    [n]. *)
Definition annunciator (n : nat) (io : t) : bool :=
  default false (annunciators io !! n).

End Apple2IO.

Module RAM.
(** Modelled from the spec: [new RAM(start, end)], "a plain byte array
    covering a page range". *)
Record t := { start_page : Z; end_page : Z; mem : list Z }.
End RAM.

(** ** The browser's scheduler *)

Module Host.

(** What the run loop uses of the browser: whether
    [requestAnimationFrame] exists, the animation-frame requests and
    interval timers that are pending (handle to callback), and the last
    handle given out.  Handles are integers greater than zero. *)
Record t := {
  raf_available : bool;
  frame_requests : gmap Z nat;
  intervals : gmap Z nat;
  last_handle : Z
}.

Definition requestAnimationFrame (cb : nat) (h : t) : Z * t :=
  let id := (last_handle h + 1)%Z in
  (id, {| raf_available := raf_available h;
          frame_requests := <[id := cb]> (frame_requests h);
          intervals := intervals h;
          last_handle := id |}).

Definition setInterval (cb : nat) (h : t) : Z * t :=
  let id := (last_handle h + 1)%Z in
  (id, {| raf_available := raf_available h;
          frame_requests := frame_requests h;
          intervals := <[id := cb]> (intervals h);
          last_handle := id |}).

Definition cancelAnimationFrame (id : Z) (h : t) : t :=
  {| raf_available := raf_available h;
     frame_requests := delete id (frame_requests h);
     intervals := intervals h;
     last_handle := last_handle h |}.

Definition clearInterval (id : Z) (h : t) : t :=
  {| raf_available := raf_available h;
     frame_requests := frame_requests h;
     intervals := delete id (intervals h);
     last_handle := last_handle h |}.

(** The browser takes a frame request off its list before it runs the
    callback. *)
Definition take_frame (id : Z) (h : t) : t := cancelAnimationFrame id h.

Definition init (raf : bool) : t :=
  {| raf_available := raf; frame_requests := ∅; intervals := ∅;
     last_handle := 0 |}.

End Host.

(** ** [src/js/apple2.ts]: class [Apple2] *)

Module State.
(** [interface State { cpu: CpuState }] *)
Record t := { cpu : CPU6502.CpuState }.
End State.

Module Apple2.

Record Stats := { frames : Z; renderedFrames : Z }.

(** The fields of the class.  The video pages and [vm] are left out: the
    run loop only calls their [blit], whose answer is an input of the
    tick below.  [ram] holds the [RAM] objects the constructor hands to
    the CPU's page table. *)
Record t := {
  paused : bool;
  DEBUG : bool;
  TRACE : bool;
  MAX_TRACE : Z;
  trace : list string;
  runTimer : option Z;
  runAnimationFrame : option Z;
  cpu : CPU6502.t;
  io : Apple2IO.t;
  mmu : option MMU.t;
  ram : list RAM.t;
  multiScreen : bool;
  stats : Stats
}.

Definition set_trace (v : list string) (a : t) : t :=
  {| paused := paused a; DEBUG := DEBUG a; TRACE := TRACE a;
     MAX_TRACE := MAX_TRACE a; trace := v; runTimer := runTimer a;
     runAnimationFrame := runAnimationFrame a; cpu := cpu a; io := io a;
     mmu := mmu a; ram := ram a; multiScreen := multiScreen a;
     stats := stats a |}.

Definition set_runTimer (v : option Z) (a : t) : t :=
  {| paused := paused a; DEBUG := DEBUG a; TRACE := TRACE a;
     MAX_TRACE := MAX_TRACE a; trace := trace a; runTimer := v;
     runAnimationFrame := runAnimationFrame a; cpu := cpu a; io := io a;
     mmu := mmu a; ram := ram a; multiScreen := multiScreen a;
     stats := stats a |}.

Definition set_runAnimationFrame (v : option Z) (a : t) : t :=
  {| paused := paused a; DEBUG := DEBUG a; TRACE := TRACE a;
     MAX_TRACE := MAX_TRACE a; trace := trace a; runTimer := runTimer a;
     runAnimationFrame := v; cpu := cpu a; io := io a;
     mmu := mmu a; ram := ram a; multiScreen := multiScreen a;
     stats := stats a |}.

Definition set_cpu (v : CPU6502.t) (a : t) : t :=
  {| paused := paused a; DEBUG := DEBUG a; TRACE := TRACE a;
     MAX_TRACE := MAX_TRACE a; trace := trace a; runTimer := runTimer a;
     runAnimationFrame := runAnimationFrame a; cpu := v; io := io a;
     mmu := mmu a; ram := ram a; multiScreen := multiScreen a;
     stats := stats a |}.

Definition set_stats (v : Stats) (a : t) : t :=
  {| paused := paused a; DEBUG := DEBUG a; TRACE := TRACE a;
     MAX_TRACE := MAX_TRACE a; trace := trace a; runTimer := runTimer a;
     runAnimationFrame := runAnimationFrame a; cpu := cpu a; io := io a;
     mmu := mmu a; ram := ram a; multiScreen := multiScreen a;
     stats := v |}.

(** The state of the objects the CPU's bus reaches (its own registers,
    the soft switches, the MMU, memory), as a whole. *)
Record Hardware := {
  hw_cpu : CPU6502.t;
  hw_io : Apple2IO.t;
  hw_mmu : MMU.t;
  hw_ram : list RAM.t
}.

(** The MMU object is the same one throughout: it is there or not as the
    constructor decided. *)
Definition set_hardware (hw : Hardware) (a : t) : t :=
  {| paused := paused a; DEBUG := DEBUG a; TRACE := TRACE a;
     MAX_TRACE := MAX_TRACE a; trace := trace a; runTimer := runTimer a;
     runAnimationFrame := runAnimationFrame a;
     cpu := hw_cpu hw; io := hw_io hw;
     mmu := match mmu a with Some _ => Some (hw_mmu hw) | None => None end;
     ram := hw_ram hw; multiScreen := multiScreen a;
     stats := stats a |}.

(** The constructor, as far as it sets the fields above: [e] and
    [multiScreen] are the options of those names; the CPU, the I/O
    object and the MMU are built by their own constructors. *)
Definition new (e multi : bool) (cpu0 : CPU6502.t) (io0 : Apple2IO.t)
    (mmu0 : MMU.t) : t :=
  {| paused := false; DEBUG := false; TRACE := false; MAX_TRACE := 256;
     trace := [];
     runTimer := None; runAnimationFrame := None;
     cpu := cpu0; io := io0;
     mmu := if e then Some mmu0 else None;
     ram := if e then []
            else [ {| RAM.start_page := 0x00; RAM.end_page := 0x03;
                      RAM.mem := replicate (4 * 256) 0%Z |};
                   {| RAM.start_page := 0x0C; RAM.end_page := 0x1F;
                      RAM.mem := replicate (20 * 256) 0%Z |};
                   {| RAM.start_page := 0x60; RAM.end_page := 0xBF;
                      RAM.mem := replicate (96 * 256) 0%Z |} ];
     multiScreen := multi;
     stats := {| frames := 0; renderedFrames := 0 |} |}.

(** *** Snapshots *)

Definition getState (a : t) : State.t :=
  {| State.cpu := CPU6502.getState (cpu a) |}.

Definition setState (state : State.t) (a : t) : t :=
  set_cpu (CPU6502.setState (State.cpu state) (cpu a)) a.

(** *** The run loop

    Calls the run loop makes into its collaborators, in the order made. *)
Inductive Call :=
| StepCycles (n : Z)
| StepCyclesDebug (n : Z)
| Debug (line : string)
| ResetVB
| VmBlit
| IoBlit
| IoTick
| Tick.

(** The emulator in its browser: the object, the scheduler, the [last]
    variable of every [runFn] closure made so far (a closure is named by
    its index), and the calls made to collaborators so far. *)
Record World := {
  apple2 : t;
  host : Host.t;
  closures : list Z;
  calls : list Call
}.

(** Methods run in a state monad over [World]. *)
Definition M (A : Type) : Type := World → A * World.

#[global] Instance M_ret : MRet M := λ A v w, (v, w).
#[global] Instance M_bind : MBind M :=
  λ A B f m w, let '(v, w') := m w in f v w'.

Definition exec {A} (m : M A) (w : World) : World := (m w).2.

Definition this : M t := λ w, (apple2 w, w).

Definition update (f : t → t) : M unit :=
  λ w, (tt, {| apple2 := f (apple2 w); host := host w;
               closures := closures w; calls := calls w |}).

Definition call (c : Call) : M unit :=
  λ w, (tt, {| apple2 := apple2 w; host := host w;
               closures := closures w; calls := calls w ++ [c] |}).

Definition host_get {A} (f : Host.t → A) : M A := λ w, (f (host w), w).

Definition host_op {A} (f : Host.t → A * Host.t) : M A :=
  λ w, let '(v, h) := f (host w) in
       (v, {| apple2 := apple2 w; host := h;
              closures := closures w; calls := calls w |}).

Definition host_do (f : Host.t → Host.t) : M unit :=
  host_op (λ h, (tt, f h)).

(** [let last = Date.now(); let runFn = () => ...]: a new closure. *)
Definition new_closure (last : Z) : M nat :=
  λ w, (length (closures w),
        {| apple2 := apple2 w; host := host w;
           closures := closures w ++ [last]; calls := calls w |}).

Definition get_last (cid : nat) : M Z :=
  λ w, (default 0%Z (closures w !! cid), w).

Definition set_last (cid : nat) (v : Z) : M unit :=
  λ w, (tt, {| apple2 := apple2 w; host := host w;
               closures := <[cid := v]> (closures w); calls := calls w |}).

Definition when (b : bool) (m : M unit) : M unit :=
  if b then m else mret tt.

(** [if (handle) f(handle)] *)
Definition when_handle (v : option Z) (f : Z → M unit) : M unit :=
  match v with
  | Some h => if JS.truthy v then f h else mret tt
  | None => mret tt
  end.

Definition for_each {A} (f : A → M unit) (l : list A) : M unit :=
  foldr (λ v k, f v ;; k) (mret tt) l.

(** What the [tick] hook, which is code of the embedding page, does to
    the emulator while it runs: its calls of [run()] and [stop()], in
    order ([date_now]: what [Date.now()] answers inside that [run()]). *)
Inductive HookCall :=
| HookRun (date_now : Z)
| HookStop.

(** What one tick reads from outside the class: the clock, the state the
    CPU's stepping leaves the hardware in, the disassembly lines handed
    to the debug callback (one per instruction), the answers of the
    two [blit]s, and what the [tick] hook does. *)
Record Obs := {
  now : Z;
  after_step : Hardware;
  debug_lines : list string;
  vm_blit_changed : bool;
  io_blit_changed : bool;
  hook : list HookCall
}.

Definition interval : Z := 30.

(** [this.trace.push(line); if (this.trace.length > this.MAX_TRACE)
    this.trace.shift()] *)
Definition push_trace (line : string) (a : t) : t :=
  let pushed := trace a ++ [line] in
  set_trace (if (Z.of_nat (length pushed) >? MAX_TRACE a)%Z
             then tail pushed else pushed) a.

(** The callback given to [stepCyclesDebug]. *)
Definition on_instruction (line : string) : M unit :=
  a ← this;
  if TRACE a then call (Debug line) else update (push_trace line).

Definition incr_renderedFrames (a : t) : t :=
  set_stats {| frames := frames (stats a);
               renderedFrames := (renderedFrames (stats a) + 1)%Z |} a.

Definition incr_frames (a : t) : t :=
  set_stats {| frames := (frames (stats a) + 1)%Z;
               renderedFrames := renderedFrames (stats a) |} a.

(** The cycle budget of a tick: [step], capped at [stepMax]. *)
Definition budget (now last kHz : Z) : Z :=
  let step := ((now - last) * kHz)%Z in
  let stepMax := (kHz * interval)%Z in
  if (step >? stepMax)%Z then stepMax else step.

(** [run()]; [date_now] is what [Date.now()] answers. *)
Definition run (date_now : Z) : M unit :=
  a ← this;
  if JS.truthy (runTimer a) || JS.truthy (runAnimationFrame a) then
    mret tt
  else
    cid ← new_closure date_now;
    raf ← host_get Host.raf_available;
    if raf : bool then
      h ← host_op (Host.requestAnimationFrame cid);
      update (set_runAnimationFrame (Some h))
    else
      h ← host_op (Host.setInterval cid);
      update (set_runTimer (Some h)).

(** [stop()] *)
Definition stop : M unit :=
  a ← this;
  when_handle (runTimer a) (λ h, host_do (Host.clearInterval h));;
  when_handle (runAnimationFrame a)
    (λ h, host_do (Host.cancelAnimationFrame h));;
  update (set_runTimer None);;
  update (set_runAnimationFrame None).

(** One call of the hook. *)
Definition hook_call (c : HookCall) : M unit :=
  match c with
  | HookRun date_now => run date_now
  | HookStop => stop
  end.

(** [runFn], the closure [cid] made by [run]; [this.tick()] is the [Tick]
    call followed by what the hook does. *)
Definition runFn (cid : nat) (obs : Obs) : M unit :=
  a ← this;
  let kHz := Apple2IO.getKHz (io a) in
  last ← get_last cid;
  let step := budget (now obs) last kHz in
  set_last cid (now obs);;
  (if DEBUG a then
     call (StepCyclesDebug (if TRACE a then 1%Z else step));;
     update (set_hardware (after_step obs));;
     for_each on_instruction (debug_lines obs)
   else
     call (StepCycles step);;
     update (set_hardware (after_step obs)));;
  a ← this;
  when (bool_decide (is_Some (mmu a))) (call ResetVB);;
  (if Apple2IO.annunciator 0 (io a) then
     when (multiScreen a) (call VmBlit);;
     call IoBlit;;
     when (io_blit_changed obs) (update incr_renderedFrames)
   else
     call VmBlit;;
     when (vm_blit_changed obs) (update incr_renderedFrames));;
  update incr_frames;;
  call IoTick;;
  call Tick;;
  for_each hook_call (hook obs);;
  a ← this;
  raf ← host_get Host.raf_available;
  when (negb (paused a) && raf)
    (h ← host_op (Host.requestAnimationFrame cid);
     update (set_runAnimationFrame (Some h))).

(** *** What can happen to an emulator

    The page calls a method, the browser fires a scheduled callback, or
    code outside the class (the CPU's [reset], key presses, a loader
    writing memory through [getCPU()]) changes the hardware. *)
Inductive Event :=
| Run (date_now : Z)
| Stop
| SetState (state : State.t)
| AnimationFrame (id : Z) (obs : Obs)
| IntervalElapsed (id : Z) (obs : Obs)
| Outside (hw : Hardware).

Definition react (e : Event) : M unit :=
  match e with
  | Run date_now => run date_now
  | Stop => stop
  | SetState state => update (setState state)
  | AnimationFrame id obs =>
      cb ← host_get (λ h, Host.frame_requests h !! id);
      match cb with
      | Some cid => host_do (Host.take_frame id);; runFn cid obs
      | None => mret tt
      end
  | IntervalElapsed id obs =>
      cb ← host_get (λ h, Host.intervals h !! id);
      match cb with
      | Some cid => runFn cid obs
      | None => mret tt
      end
  | Outside hw => update (set_hardware hw)
  end.

(** The closure an event runs, with what the tick reads, when the event
    is a scheduled callback firing. *)
Definition tick_of (e : Event) (w : World) : option (nat * Obs) :=
  match e with
  | AnimationFrame id obs =>
      (λ cid, (cid, obs)) <$> Host.frame_requests (host w) !! id
  | IntervalElapsed id obs =>
      (λ cid, (cid, obs)) <$> Host.intervals (host w) !! id
  | _ => None
  end.

Definition is_tick (e : Event) (w : World) : bool :=
  bool_decide (is_Some (tick_of e w)).

(** The calls an event makes. *)
Definition log_of (e : Event) (w : World) : list Call :=
  drop (length (calls w)) (calls (exec (react e) w)).

Definition is_cpu_step (c : Call) : bool :=
  match c with StepCycles _ | StepCyclesDebug _ => true | _ => false end.

Definition is_blit (c : Call) : bool :=
  match c with VmBlit | IoBlit => true | _ => false end.

Definition is_run (e : Event) : bool :=
  match e with Run _ => true | _ => false end.

Definition boot (raf : bool) (a : t) : World :=
  {| apple2 := a; host := Host.init raf; closures := []; calls := [] |}.

(** The states an emulator can be in: a newly constructed one, and what
    events make of it. *)
Inductive reachable : World → Prop :=
| reachable_boot raf e multi cpu0 io0 mmu0 :
    reachable (boot raf (new e multi cpu0 io0 mmu0))
| reachable_react w e :
    reachable w → reachable (exec (react e) w).

Definition react_all (es : list Event) (w : World) : World :=
  foldl (λ w e, exec (react e) w) w es.

End Apple2.

(** ** [src/js/formats/po.js]: the ProDOS-order loader *)

Module Formats.

(** What [po.js] imports from [./format_utils] and [../util], whose code
    is in other files: the ProDOS interleave table, the nibblizer of one
    sector (volume, track, physical sector, sector data; the volume and
    the data are passed as they come, so they can be [undefined]), and
    the conversion of a track to a byte array.  The two functions are
    taken to return on every argument; what the loader does when one of
    them throws (it throws too) is not modelled. *)
Class FormatUtils := {
  PO : list nat;
  explodeSector16 : option Z → nat → nat → option (list Z) → list Z;
  bytify : list Z → list Z
}.

(** The argument of [ProDOS]; [data], when given, is an array of tracks
    that are arrays of sectors. *)
Record Options := {
  data : option (list (list (list Z)));
  name : string;
  rawData : option (list Z);
  volume : option Z;
  readOnly : option bool
}.

Record Disk := {
  format : string;
  disk_name : string;
  disk_volume : Z;
  tracks : list (list Z);
  disk_readOnly : bool;
  trackMap : option (list Z);
  rawTracks : option (list (list Z))
}.

Section Loader.
Context `{FormatUtils}.

(** The body of [if (rawData) ... else ...]: the sector handed to
    [explodeSector16].  The outer [None] is a [TypeError] (indexing
    [undefined]); an inner [None] is [undefined] passed on.  Where
    [PO[physical_sector]] is [undefined], [off] is [NaN] and
    [slice(NaN, NaN)] is empty. *)
Definition read_sector (o : Options) (physical_track physical_sector : nat)
    : option (option (list Z)) :=
  let prodos_sector := PO !! physical_sector in
  match rawData o with
  | Some raw =>
      Some (Some
        match prodos_sector with
        | Some s =>
            let off := (16 * physical_track + s) * 256 in
            JS.slice off (off + 256) raw
        | None => []
        end)
  | None =>
      d ← data o;
      track ← d !! physical_track;
      Some (s ← prodos_sector; track !! s)
  end.

(** The inner loop: [track] after physical sectors 0..15. *)
Definition nibblize_track (o : Options) (physical_track : nat)
    : option (list Z) :=
  foldl (λ acc physical_sector,
           track ← acc;
           sector ← read_sector o physical_track physical_sector;
           Some (track ++ explodeSector16 (volume o) physical_track
                            physical_sector sector))
        (Some []) (seq 0 16).

(** [ProDOS(options)]; [None] is a [TypeError]. *)
Definition ProDOS (o : Options) : option Disk :=
  tracks ← foldl (λ acc physical_track,
                    tracks ← acc;
                    track ← nibblize_track o physical_track;
                    Some (JS.array_set [] physical_track
                            (bytify track) tracks))
                 (Some []) (seq 0 35);
  Some {| format := "nib";
          disk_name := name o;
          disk_volume := JS.or_default (volume o) 254;
          tracks := tracks;
          disk_readOnly := JS.or_false (readOnly o);
          trackMap := None;
          rawTracks := None |}.

End Loader.

(** The 256-byte logical sector [s] of track [t] of a sector-ordered
    image. *)
Definition logical_sector (raw : list Z) (t s : nat) : list Z :=
  take 256 (drop ((16 * t + s) * 256) raw).

Definition is_byte (v : Z) : Prop := (0 ≤ v < 256)%Z.

End Formats.

(** ** [src/js/ui/apple2.ts]: loading a disk image *)

Module UI.

(** *** Strings

    A JavaScript string is modelled by its UTF-8 bytes.  Splitting at an
    ASCII character, joining with one and comparing for equality mean the
    same on the bytes as on the UTF-16 code units. *)

(** [s.split(sep)] for a one-character (ASCII) separator. *)
Fixpoint split (sep : Ascii.ascii) (s : string) : list string :=
  match s with
  | EmptyString => [EmptyString]
  | String c rest =>
      if Ascii.eqb c sep then EmptyString :: split sep rest
      else match split sep rest with
           | first :: others => String c first :: others
           | [] => [String c EmptyString]
           end
  end.

(** [parts.join(sep)] *)
Fixpoint join (sep : string) (parts : list string) : string :=
  match parts with
  | [] => EmptyString
  | [s] => s
  | s :: rest => s +:+ sep +:+ join sep rest
  end.

(** [parts.pop()]: the last element, and what is left of the array. *)
Definition pop (parts : list string) : string * list string :=
  (List.last parts EmptyString, removelast parts).

(** [type DriveNumber = 1 | 2] *)
Inductive DriveNumber := Drive1 | Drive2.

Definition drive_number (drive : DriveNumber) : Z :=
  match drive with Drive1 => 1 | Drive2 => 2 end.

(** *** The page around the two loaders

    [DISK_FORMATS] is imported from [../types]; the two cards answer
    [setBinary] with a boolean.  [toLowerCase] is the platform's
    [String.prototype.toLowerCase] (Unicode-aware: nothing is assumed of
    it); [decodeURIComponent] gives the decoded string or throws a
    [URIError] (right: its message). *)
Class Page := {
  DISK_FORMATS : list string;
  smartPort_setBinary : DriveNumber → string → string → list Z → bool;
  disk2_setBinary : DriveNumber → string → string → list Z → bool;
  toLowerCase : string → string;
  decodeURIComponent : string → string + string
}.

(** What a loader does to the rest of the page, in order. *)
Inductive Effect :=
| LoadingStart
| LoadingStop
| SetHash (hash : string)
| SmartPortSetBinary (drive : DriveNumber) (name ext : string)
    (bytes : list Z)
| DiskIISetBinary (drive : DriveNumber) (name ext : string)
    (bytes : list Z)
| SetFocused (v : bool)
| InitGamepad
| OpenAlert (msg : string).

Definition threshold : Z := 800 * 1024.

Section Loaders.
Context `{Page}.

Definition includes (formats : list string) (ext : string) : bool :=
  bool_decide (ext ∈ formats).

(** [doLoadLocalDisk(drive, file)], once the [FileReader] delivers
    [result]; [hash] is [document.location.hash] at that time. *)
Definition doLoadLocalDisk (drive : DriveNumber) (file_name : string)
    (hash : string) (result : list Z) : list Effect :=
  let '(last, parts) := pop (split "."%char file_name) in
  let ext := toLowerCase last in
  let name := join "." parts in
  let files := split "|"%char hash in
  let files := JS.array_set EmptyString
                 (Z.to_nat (drive_number drive - 1)) EmptyString files in
  [LoadingStart; SetHash (join "|" files)] ++
  (if (threshold <=? Z.of_nat (length result))%Z then
     SmartPortSetBinary drive name ext result ::
     (if smartPort_setBinary drive name ext result
      then [SetFocused false; InitGamepad] else [])
   else
     if includes DISK_FORMATS ext then
       DiskIISetBinary drive name ext result ::
       (if disk2_setBinary drive name ext result
        then [SetFocused false; InitGamepad]
        else [OpenAlert ("Unable to load " +:+ name)])
     else [OpenAlert ("Unable to load " +:+ name)]) ++
  [LoadingStop].

(** The second [then] of [doLoadHTTP(drive, url)], run on the bytes
    of a response that was [ok] ([chunks]: what the reader delivered,
    copied into [data] in order), followed by [catch] when it throws. *)
Definition doLoadHTTP (drive : DriveNumber) (url : string)
    (chunks : list (list Z)) : list Effect :=
  let data := concat chunks in
  let '(file, _) := pop (split "/"%char url) in
  let '(last, fileParts) := pop (split "."%char file) in
  let ext := toLowerCase last in
  [LoadingStart] ++
  match decodeURIComponent (join "." fileParts) with
  | inr msg => [LoadingStop; OpenAlert msg]
  | inl name =>
      if (threshold <=? Z.of_nat (length data))%Z then
        SmartPortSetBinary drive name ext data ::
        (if smartPort_setBinary drive name ext data
         then [InitGamepad] else []) ++ [LoadingStop]
      else
        if includes DISK_FORMATS ext then
          DiskIISetBinary drive name ext data ::
          (if disk2_setBinary drive name ext data
           then [InitGamepad; LoadingStop]
           else [LoadingStop;
                 OpenAlert ("Extension " +:+ ext +:+ " not recognized.")])
        else [LoadingStop;
              OpenAlert ("Extension " +:+ ext +:+ " not recognized.")]
  end.

End Loaders.

(** *** Local files of other kinds, and the URL fragment *)

(** What the page imports for them: [TAPE_TYPES] from [./tape] and
    [DRIVE_NUMBERS] from [../cards/disk2]. *)
Class Imports := {
  TAPE_TYPES : list string;
  DRIVE_NUMBERS : list Z
}.

Definition BIN_TYPES : list string := ["bin"].

Definition is_hex (c : Ascii.ascii) : bool :=
  let n := Ascii.N_of_ascii c in
  ((48 <=? n) && (n <=? 57) || (65 <=? n) && (n <=? 70) ||
   (97 <=? n) && (n <=? 102))%N.

Fixpoint all_hex (s : string) : bool :=
  match s with
  | EmptyString => true
  | String c rest => is_hex c && all_hex rest
  end.

(** [file.name.match(CIDERPRESS_EXTENSION)] for
    [/#([0-9a-f]{2})([0-9a-f]{4})$/i]: the two groups, when the name ends
    in [#] and six hex digits (without the [u] flag, [i] lets only the
    ASCII letters match [a-f]). *)
Definition ciderpress (file_name : string) : option (string * string) :=
  let n := String.length file_name in
  if n <? 7 then None
  else
    match String.substring (n - 7) 7 file_name with
    | String "#" digits =>
        if all_hex digits
        then Some (String.substring 0 2 digits, String.substring 2 4 digits)
        else None
    | _ => None
    end.

Definition hex_value (c : Ascii.ascii) : Z :=
  let n := Z.of_N (Ascii.N_of_ascii c) in
  (if n <=? 57 then n - 48 else if n <=? 70 then n - 55 else n - 87)%Z.

(** [parseInt(s, 16)] on a string of hex digits. *)
Definition parseInt16 (s : string) : Z :=
  foldl (λ acc c, (acc * 16 + hex_value c)%Z) 0%Z (String.list_ascii_of_string s).

(** [Partial<LoadOptions>] *)
Record LoadOptions := {
  address : option Z;
  runOnLoad : option bool
}.

(** What the loaders below do, in order: an effect of the disk loaders,
    a call into the CPU, the tape or one of the two URL loaders. *)
Inductive Action :=
| PageEffect (e : Effect)
| CpuWrite (page off val : Z)
| CpuReset
| CpuSetPC (pc : Z)
| TapeLoad (file_name : string)
| LoadAjax (drive : Z) (url : string)
| LoadHTTP (drive : Z) (url : string).

(** The loop of [doLoadBinary]: [address] and the writes so far, after
    one more byte. *)
Definition write_next (acc : Z * list Action) (byte : Z) : Z * list Action :=
  let '(address, writes) := acc in
  ((address + 1)%Z,
   writes ++ [CpuWrite (JS.shr address 8) (JS.band address 0xff) byte]).

(** [doLoadBinary(file, options)], once the [FileReader] delivers
    [result]. *)
Definition doLoadBinary (result : list Z) (address : Z)
    (runOnLoad : option bool) : list Action :=
  [PageEffect LoadingStart] ++
  (foldl write_next (address, []) result).2 ++
  (if JS.or_false runOnLoad then [CpuReset; CpuSetPC address] else []) ++
  [PageEffect LoadingStop].

Section OtherLoaders.
Context `{Page} `{Imports}.

(** [doLoadLocal(drive, file, options)]; the file's bytes are what its
    reader will deliver, and [hash] is the URL fragment then. *)
Definition doLoadLocal (drive : DriveNumber) (file_name : string)
    (hash : string) (result : list Z) (options : LoadOptions)
    : list Action :=
  let parts := split "."%char file_name in
  let ext := toLowerCase (List.last parts EmptyString) in
  let matches := ciderpress file_name in
  let type := fst <$> matches in
  let aux := snd <$> matches in
  if includes DISK_FORMATS ext then
    PageEffect <$> doLoadLocalDisk drive file_name hash result
  else if includes TAPE_TYPES ext then
    [TapeLoad file_name]
  else if includes BIN_TYPES ext || bool_decide (type = Some "06")
          || JS.truthy (address options) then
    let parsed :=
      parseInt16 (if JS.truthy_string aux then default EmptyString aux
                  else "2000") in
    doLoadBinary result (default parsed (address options))
      (runOnLoad options)
  else
    [PageEffect (OpenAlert ("Unknown file type: " +:+ ext))].

(** One turn of the loop of [processHash]: what is started for entry
    [file] of drive [drive]. *)
Definition process_entry (drive : Z) (file : string) : list Action :=
  match String.index 0 "://" file with
  | Some (S _) =>
      let parts := split "."%char file in
      let ext := toLowerCase (List.last parts EmptyString) in
      if bool_decide (ext = "json") then [LoadAjax drive file]
      else [LoadHTTP drive file]
  | _ =>
      if bool_decide (file = EmptyString) then []
      else [LoadAjax drive ("json/disks/" +:+ file +:+ ".json")]
  end.

(** The loop from [idx] on, over the entries that are left; it stops at
    [idx = 2] and at a drive that is not in [DRIVE_NUMBERS]. *)
Fixpoint process_from (idx : nat) (files : list string) : list Action :=
  match files with
  | [] => []
  | file :: rest =>
      if bool_decide (idx < 2) then
        let drive := (Z.of_nat idx + 1)%Z in
        if bool_decide (drive ∈ DRIVE_NUMBERS) then
          process_entry drive file ++ process_from (S idx) rest
        else []
      else []
  end.

(** [processHash(hash)] *)
Definition processHash (hash : string) : list Action :=
  process_from 0 (split "|"%char hash).

End OtherLoaders.

End UI.

(** ** The pause button and the end of a load

    [paused] of [src/js/ui/apple2.ts] beside the emulator.  [vm.ready] has
    resolved: the callback given to [vm.ready.then] runs as soon as the
    handler that registered it returns, before any other event. *)

Module Session.

Record t := {
  paused : bool;
  emulator : Apple2.World
}.

(** [loadingStop()], as far as the emulator goes. *)
Definition loadingStop (date_now : Z) (s : t) : t :=
  {| paused := paused s;
     emulator := if paused s then emulator s
                 else Apple2.exec (Apple2.run date_now) (emulator s) |}.

(** [pauseRun()] *)
Definition pauseRun (date_now : Z) (s : t) : t :=
  {| paused := negb (paused s);
     emulator := if paused s
                 then Apple2.exec (Apple2.run date_now) (emulator s)
                 else Apple2.exec Apple2.stop (emulator s) |}.

(** The end of [onLoaded]: with a fragment the emulator is stopped and the
    loads are started (each ends in [loadingStop]); without one it runs. *)
Definition onLoaded (has_hash : bool) (date_now : Z) (w : Apple2.World) : t :=
  {| paused := false;
     emulator := if has_hash then Apple2.exec Apple2.stop w
                 else Apple2.exec (Apple2.run date_now) w |}.

(** What happens to a loaded page: the pause button, the end of a load,
    and what happens to the emulator without the page calling [run] or
    [stop] (callbacks firing, a quick restore, the hardware). *)
Inductive Event :=
| PauseRun (date_now : Z)
| LoadingStop (date_now : Z)
| Emulator (e : Apple2.Event).

(** The hook the page gives its emulator is [updateUI]
    ([src/js/ui/apple2.ts], 836-844): it looks at the URL fragment and
    starts loads, which end in [loadingStop] later; it calls neither
    [run()] nor [stop()]. *)
Definition updateUI : list Apple2.HookCall := [].

Definition with_hook (h : list Apple2.HookCall) (obs : Apple2.Obs)
    : Apple2.Obs :=
  {| Apple2.now := Apple2.now obs;
     Apple2.after_step := Apple2.after_step obs;
     Apple2.debug_lines := Apple2.debug_lines obs;
     Apple2.vm_blit_changed := Apple2.vm_blit_changed obs;
     Apple2.io_blit_changed := Apple2.io_blit_changed obs;
     Apple2.hook := h |}.

(** An event of the emulator, on this page. *)
Definition on_page (e : Apple2.Event) : Apple2.Event :=
  match e with
  | Apple2.AnimationFrame id obs =>
      Apple2.AnimationFrame id (with_hook updateUI obs)
  | Apple2.IntervalElapsed id obs =>
      Apple2.IntervalElapsed id (with_hook updateUI obs)
  | _ => e
  end.

Definition react (e : Event) (s : t) : t :=
  match e with
  | PauseRun date_now => pauseRun date_now s
  | LoadingStop date_now => loadingStop date_now s
  | Emulator e =>
      match e with
      | Apple2.Run _ | Apple2.Stop => s
      | _ => {| paused := paused s;
                emulator :=
                  Apple2.exec (Apple2.react (on_page e)) (emulator s) |}
      end
  end.

Inductive reachable : t → Prop :=
| reachable_loaded raf e multi cpu0 io0 mmu0 has_hash date_now :
    reachable (onLoaded has_hash date_now
                 (Apple2.boot raf (Apple2.new e multi cpu0 io0 mmu0)))
| reachable_react s e :
    reachable s → reachable (react e s).

End Session.

(** * The vocabulary of the statements *)

(** ** One tick, [run] and [stop] in closed form; the invariant *)

Section TickVocabulary.
Import Apple2.

(** The calls of the debug callback, and what it leaves in [trace]. *)
Definition debug_calls (a : t) (lines : list string) : list Call :=
  if TRACE a then Debug <$> lines else [].

Definition traced (a : t) (lines : list string) : t :=
  if TRACE a then a else foldl (λ a line, push_trace line a) a lines.

(** The emulator after the CPU has stepped. *)
Definition stepped (obs : Obs) (a : t) : t :=
  let a1 := set_hardware (after_step obs) a in
  if DEBUG a then traced a1 (debug_lines obs) else a1.

Definition cpu_calls (obs : Obs) (last : Z) (a : t) : list Call :=
  let step := budget (now obs) last (Apple2IO.getKHz (io a)) in
  if DEBUG a then
    StepCyclesDebug (if TRACE a then 1%Z else step) ::
    debug_calls a (debug_lines obs)
  else [StepCycles step].

(** The rendering calls, and the answer the tick looks at. *)
Definition blit_calls (a1 : t) : list Call :=
  if Apple2IO.annunciator 0 (io a1)
  then (if multiScreen a1 then [VmBlit] else []) ++ [IoBlit]
  else [VmBlit].

Definition consulted_blit (obs : Obs) (a1 : t) : bool :=
  if Apple2IO.annunciator 0 (io a1)
  then io_blit_changed obs else vm_blit_changed obs.

Definition counted (obs : Obs) (a1 : t) : t :=
  incr_frames (if consulted_blit obs a1 then incr_renderedFrames a1 else a1).

Definition tick_calls (obs : Obs) (last : Z) (a : t) : list Call :=
  cpu_calls obs last a ++
  (if bool_decide (is_Some (mmu a)) then [ResetVB] else []) ++
  blit_calls (stepped obs a) ++ [IoTick; Tick].

Definition reschedules (a : t) (h : Host.t) : bool :=
  negb (paused a) && Host.raf_available h.

Definition running (a : t) : bool :=
  JS.truthy (runTimer a) || JS.truthy (runAnimationFrame a).

(** [if (handle) cancel(handle)] on the scheduler. *)
Definition cancelled (v : option Z) (cancel : Z → Host.t → Host.t)
    (h : Host.t) : Host.t :=
  match v with
  | Some id => if JS.truthy v then cancel id h else h
  | None => h
  end.

Definition with_host (h : Host.t) (w : World) : World :=
  {| apple2 := apple2 w; host := h; closures := closures w;
     calls := calls w |}.

(** No tick source. *)
Definition idle (w : World) : Prop :=
  runTimer (apple2 w) = None ∧ runAnimationFrame (apple2 w) = None ∧
  Host.frame_requests (host w) = ∅ ∧ Host.intervals (host w) = ∅.

(** One pending animation-frame request, the one [runAnimationFrame]
    names. *)
Definition on_frames (w : World) : Prop :=
  Host.raf_available (host w) = true ∧
  runTimer (apple2 w) = None ∧ Host.intervals (host w) = ∅ ∧
  ∃ id cid, (0 < id)%Z ∧ cid < length (closures w) ∧
    runAnimationFrame (apple2 w) = Some id ∧
    Host.frame_requests (host w) = {[id := cid]}.

(** One interval timer, the one [runTimer] names. *)
Definition on_interval (w : World) : Prop :=
  Host.raf_available (host w) = false ∧
  runAnimationFrame (apple2 w) = None ∧
  Host.frame_requests (host w) = ∅ ∧
  ∃ id cid, (0 < id)%Z ∧ cid < length (closures w) ∧
    runTimer (apple2 w) = Some id ∧
    Host.intervals (host w) = {[id := cid]}.

Definition scheduled (w : World) : Prop :=
  paused (apple2 w) = false ∧ DEBUG (apple2 w) = false ∧
  (0 ≤ Host.last_handle (host w))%Z ∧
  (idle w ∨ on_frames w ∨ on_interval w).

Definition stats_ok (w : World) : Prop :=
  (0 ≤ renderedFrames (stats (apple2 w)) ≤ frames (stats (apple2 w)))%Z.

Definition sources (w : World) : nat :=
  size (Host.frame_requests (host w)) + size (Host.intervals (host w)).

(** [runFn] in three parts: the world when the hook is called, what the
    hook makes of it, and the rescheduling at the end. *)
Definition ticked (cid : nat) (obs : Obs) (w : World) : World :=
  {| apple2 := counted obs (stepped obs (apple2 w));
     host := host w;
     closures := <[cid := now obs]> (closures w);
     calls := calls w ++
              tick_calls obs (default 0%Z (closures w !! cid)) (apple2 w) |}.

Definition hooked (cs : list HookCall) (w : World) : World :=
  foldl (λ w c, exec (hook_call c) w) w cs.

Definition rescheduled (cid : nat) (w : World) : World :=
  if reschedules (apple2 w) (host w) then
    {| apple2 := set_runAnimationFrame
                   (Some (Host.last_handle (host w) + 1)%Z) (apple2 w);
       host := (Host.requestAnimationFrame cid (host w)).2;
       closures := closures w; calls := calls w |}
  else w.

(** The emulator without its two handles. *)
Definition machine (a : t) : t :=
  set_runAnimationFrame None (set_runTimer None a).

(** The closure of a scheduled callback. *)
Definition pending (w : World) (cid : nat) : Prop :=
  ∃ id, Host.frame_requests (host w) !! id = Some cid ∨
        Host.intervals (host w) !! id = Some cid.

(** What holds of every emulator, whatever its hook does: it is not
    paused and not in debug mode (nothing sets either field), a handle is
    a positive number, animation frames are used when the browser has them
    and the interval timer when not, and every scheduled callback is a
    closure that [run()] has made. *)
Definition wired (w : World) : Prop :=
  paused (apple2 w) = false ∧ DEBUG (apple2 w) = false ∧
  (0 ≤ Host.last_handle (host w))%Z ∧
  (∀ id, runTimer (apple2 w) = Some id → (0 < id)%Z) ∧
  (∀ id, runAnimationFrame (apple2 w) = Some id → (0 < id)%Z) ∧
  (if Host.raf_available (host w)
   then runTimer (apple2 w) = None ∧ Host.intervals (host w) = ∅
   else runAnimationFrame (apple2 w) = None ∧
        Host.frame_requests (host w) = ∅) ∧
  ∀ cid, pending w cid → cid < length (closures w).

(** The calls a tick's hook makes. *)
Definition hook_of (e : Event) : list HookCall :=
  match e with
  | AnimationFrame _ obs | IntervalElapsed _ obs => hook obs
  | _ => []
  end.

Definition is_hook_stop (c : HookCall) : bool :=
  match c with HookStop => true | HookRun _ => false end.

(** A hook that does not restart the emulator: no [run()] after a
    [stop()]. *)
Fixpoint calm_hook (cs : list HookCall) : bool :=
  match cs with
  | [] => true
  | HookRun _ :: rest => calm_hook rest
  | HookStop :: rest => forallb is_hook_stop rest
  end.

Definition calm (e : Event) : bool := calm_hook (hook_of e).

(** A hook that calls neither. *)
Definition quiet (e : Event) : bool :=
  match hook_of e with [] => true | _ => false end.

(** The emulators whose hook has never restarted them. *)
Inductive steady : World → Prop :=
| steady_boot raf e multi cpu0 io0 mmu0 :
    steady (boot raf (new e multi cpu0 io0 mmu0))
| steady_react w e :
    steady w → calm e = true → steady (exec (react e) w).

(** No event of [es], run from [w], is a tick of the callback [cid]. *)
Fixpoint untouched (cid : nat) (es : list Event) (w : World) : Prop :=
  match es with
  | [] => True
  | e :: rest =>
      (∀ obs, tick_of e w ≠ Some (cid, obs)) ∧
      untouched cid rest (exec (react e) w)
  end.

End TickVocabulary.

(** ** Machines to run the statements on *)

Module Examples.
Import Apple2.

Definition cpu_reset : CPU6502.t :=
  {| CPU6502.a := 0; CPU6502.x := 0; CPU6502.y := 0; CPU6502.sp := 0xFD;
     CPU6502.pc := 0xFA62; CPU6502.sr := 0x24; CPU6502.cycles := 0;
     CPU6502.irq_pending := false; CPU6502.nmi_pending := false;
     CPU6502.reset_pending := false |}.

Definition io_reset : Apple2IO.t :=
  {| Apple2IO.kHz := 1023;
     Apple2IO.annunciators := [false; false; false; false];
     Apple2IO.latches := 0 |}.

Definition mmu_reset : MMU.t := {| MMU.latches := 0 |}.

(** An Apple II+ and a IIe in a browser with [requestAnimationFrame], and
    a II+ in one without. *)
Definition plus : World := boot true (new false false cpu_reset io_reset mmu_reset).
Definition iie : World := boot true (new true false cpu_reset io_reset mmu_reset).
Definition plus_timer : World :=
  boot false (new false true cpu_reset io_reset mmu_reset).

(** The II+ after a program has written a byte, set annunciator 0 and
    touched a soft switch; the IIe after a bank switch.  The CPU is back
    at the same registers and cycle count. *)
Definition plus_written : Hardware :=
  {| hw_cpu := cpu_reset;
     hw_io := {| Apple2IO.kHz := 1023;
                 Apple2IO.annunciators := [true; false; false; false];
                 Apple2IO.latches := 1 |};
     hw_mmu := mmu_reset;
     hw_ram := [ {| RAM.start_page := 0x00; RAM.end_page := 0x03;
                    RAM.mem := 0xFF%Z :: replicate (4 * 256 - 1) 0%Z |};
                 {| RAM.start_page := 0x0C; RAM.end_page := 0x1F;
                    RAM.mem := replicate (20 * 256) 0%Z |};
                 {| RAM.start_page := 0x60; RAM.end_page := 0xBF;
                    RAM.mem := replicate (96 * 256) 0%Z |} ] |}.

Definition iie_switched : Hardware :=
  {| hw_cpu := cpu_reset; hw_io := io_reset;
     hw_mmu := {| MMU.latches := 0x8000 |}; hw_ram := [] |}.

Definition plus' : World := exec (react (Outside plus_written)) plus.
Definition iie' : World := exec (react (Outside iie_switched)) iie.

(** A running IIe, and the frame that fires 16 ms after [run()]. *)
Definition iie_running : World := exec (react (Run 1000)) iie.

Definition frame_obs : Obs :=
  {| now := 1016; after_step := iie_switched; debug_lines := [];
     vm_blit_changed := true; io_blit_changed := false;
     hook := [] |}.

Definition frame : Event := AnimationFrame 1 frame_obs.

(** A II+ on the interval timer, with [multiScreen], and a tick in which
    the program has set annunciator 0. *)
Definition timer_running : World := exec (react (Run 1000)) plus_timer.

Definition aux_obs : Obs :=
  {| now := 1030; after_step := plus_written; debug_lines := [];
     vm_blit_changed := false; io_blit_changed := true;
     hook := [] |}.

Definition timer_tick : Event := IntervalElapsed 1 aux_obs.

(** The first frame of the running IIe again, with a hook that calls
    [stop()], and with one that calls [stop()] and then [run()]; the frame
    after it. *)
Definition stopping_obs : Obs :=
  {| now := 1016; after_step := iie_switched; debug_lines := [];
     vm_blit_changed := true; io_blit_changed := false;
     hook := [HookStop] |}.

Definition stopping_frame : Event := AnimationFrame 1 stopping_obs.



Definition next_obs : Obs :=
  {| now := 1032; after_step := iie_switched; debug_lines := [];
     vm_blit_changed := false; io_blit_changed := false;
     hook := [] |}.

(** The tick of the II+ on the interval timer, with the hook that calls
    [stop()]. *)
Definition stopping_tick : Event :=
  IntervalElapsed 1
    {| now := 1030; after_step := plus_written; debug_lines := [];
       vm_blit_changed := false; io_blit_changed := true;
       hook := [HookStop] |}.

End Examples.

(** ** Snapshots *)

Section SnapshotVocabulary.
Import Apple2.

(** A component of the emulator is in the snapshot when the snapshot
    determines it. *)
Definition recoverable {X} (component : t → X) : Prop :=
  ∀ a b, getState a = getState b → component a = component b.

(** The state format as the specification describes it. *)
Definition snapshot_is_complete : Prop :=
  recoverable (λ a, CPU6502.getState (cpu a)) ∧
  recoverable mmu ∧ recoverable io ∧ recoverable ram.

End SnapshotVocabulary.

(** ** Disk images *)

Section LoaderVocabulary.
Import Formats.
Context `{FormatUtils}.

(** [PO[p]], for [p] inside the table. *)
Definition PO_at (p : nat) : nat := default 0 (PO !! p).

End LoaderVocabulary.

Module DiskExamples.
Import Formats.

(** The ProDOS interleave. *)
Definition PO_table : list nat :=
  [0; 8; 1; 9; 2; 10; 3; 11; 4; 12; 5; 13; 6; 14; 7; 15].

(** A stand-in for the nibblizer that makes what it is given visible:
    the address prologue, then volume, track and sector as its bit
    operations would read them ([undefined] as 0), one byte each. *)
Definition address_field (v : option Z) (t p : nat) (d : option (list Z))
    : list Z :=
  [0xD5; 0xAA; 0x96; default 0 v `mod` 256; Z.of_nat t `mod` 256;
   Z.of_nat p `mod` 256]%Z.

(** [new Uint8Array(ary)] *)
Definition to_uint8 (ary : list Z) : list Z := (λ v, v `mod` 256)%Z <$> ary.

Definition probe : FormatUtils :=
  {| PO := PO_table; explodeSector16 := address_field; bytify := to_uint8 |}.

(** A blank image, loaded without a volume number. *)
Definition blank_image : list Z := replicate (35 * 16 * 256) 0%Z.

Definition blank : Options :=
  {| data := None; name := "blank"; rawData := Some blank_image;
     volume := None; readOnly := None |}.

End DiskExamples.

Section RoutingVocabulary.
Import UI.
Context `{Page}.

(** The extension and the name the loaders take from a file name. *)
Definition ext_of (file_name : string) : string :=
  toLowerCase (pop (split "."%char file_name)).1.

Definition name_of (file_name : string) : string :=
  join "." (pop (split "."%char file_name)).2.

(** The last segment of a URL's path. *)
Definition file_of (url : string) : string := (pop (split "/"%char url)).1.

Definition large (bytes : list Z) : Prop :=
  (800 * 1024 ≤ Z.of_nat (length bytes))%Z.

(** What a run of effects hands to which card. *)
Definition card_calls (effects : list Effect) : list Effect :=
  List.filter (λ e, match e with
                    | SmartPortSetBinary _ _ _ _ | DiskIISetBinary _ _ _ _ => true
                    | _ => false
                    end) effects.

End RoutingVocabulary.

Module PageExamples.
Import UI.

Definition lower (c : Ascii.ascii) : Ascii.ascii :=
  let n := Ascii.N_of_ascii c in
  if ((65 <=? n) && (n <=? 90))%N then Ascii.ascii_of_N (n + 32) else c.

(** What [toLowerCase] makes of an ASCII string. *)
Fixpoint lower_ascii (s : string) : string :=
  match s with
  | EmptyString => EmptyString
  | String c rest => String (lower c) (lower_ascii rest)
  end.

(** Every [%] is followed by two hex digits. *)
Fixpoint well_escaped (s : string) : bool :=
  match s with
  | EmptyString => true
  | String c rest =>
      if Ascii.eqb c "%"%char then
        match rest with
        | String h1 (String h2 rest') =>
            is_hex h1 && is_hex h2 && well_escaped rest'
        | _ => false
        end
      else well_escaped rest
  end.

(** Every escape replaced by the byte it stands for. *)
Fixpoint unescape (s : string) : string :=
  match s with
  | EmptyString => EmptyString
  | String c rest =>
      if Ascii.eqb c "%"%char then
        match rest with
        | String h1 (String h2 rest') =>
            String (Ascii.ascii_of_N (Z.to_N (hex_value h1 * 16 + hex_value h2)))
              (unescape rest')
        | _ => s
        end
      else String c (unescape rest)
  end.

(** A page whose cards accept every image.  Its [toLowerCase] and
    [decodeURIComponent] are the platform's on the names used here, which
    are ASCII: a [%] that is not followed by two hex digits is a
    [URIError], and escapes are replaced by their bytes. *)
Definition page : Page :=
  {| DISK_FORMATS := ["2mg"; "d13"; "do"; "dsk"; "hdv"; "po"; "nib"; "woz"];
     smartPort_setBinary := λ _ _ _ _, true;
     disk2_setBinary := λ _ _ _ _, true;
     toLowerCase := lower_ascii;
     decodeURIComponent :=
       λ s, if well_escaped s then inl (unescape s)
            else inr "URI malformed" |}.

Definition url : string := "https://example.org/disks/ProDOS_2_4.PO".

(** The three chunks of a (short) response. *)
Definition chunks : list (list Z) := [[1; 2]; [3]; [4; 5; 6]]%Z.

(** A hard-disk image of 800 K, in one chunk, behind a URL whose file
    name does not decode. *)
Definition bad_url : string := "https://example.org/disks/100%.po".

Definition hard_disk : list (list Z) := [replicate (800 * 1024) 0%Z].

End PageExamples.

(** ** Further examples and vocabulary *)

Module MoreExamples.
Import Apple2.

(** A frame that fires late, four seconds after the one before. *)
Definition late_obs : Obs :=
  {| now := 5000; after_step := Examples.iie_switched; debug_lines := [];
     vm_blit_changed := false; io_blit_changed := false;
     hook := [] |}.

Definition late_frame : Event := AnimationFrame 2 late_obs.

(** A IIe that ran and was stopped, and the first frame after it is
    started again at 90000. *)
Definition paused_iie : World := exec (react Stop) Examples.iie_running.

Definition resumed_obs : Obs :=
  {| now := 90016; after_step := Examples.iie_switched; debug_lines := [];
     vm_blit_changed := true; io_blit_changed := false;
     hook := [] |}.

Definition resumed_frame : Event := AnimationFrame 2 resumed_obs.

End MoreExamples.

Module MoreDiskExamples.
Import Formats.

(** A three-byte buffer passed as a disk image. *)
Definition short : Options :=
  {| data := None; name := "short"; rawData := Some [1; 2; 3]%Z;
     volume := Some 254%Z; readOnly := Some true |}.

(** The blank image of [DiskExamples], as sectors. *)
Definition blank_sectors : Options :=
  {| data := Some (replicate 35 (replicate 16 (replicate 256 0%Z)));
     name := "blank"; rawData := None; volume := None; readOnly := None |}.

(** An image of one track that holds its logical sector 0 only. *)
Definition one_track : Options :=
  {| data := Some [[replicate 256 0%Z]]; name := "one"; rawData := None;
     volume := None; readOnly := None |}.

End MoreDiskExamples.

Section LoaderVocabulary2.
Import UI.

(** The calls of a run of actions into a card. *)
Definition card_actions (actions : list Action) : list Action :=
  List.filter (λ a, match a with
                    | PageEffect (SmartPortSetBinary _ _ _ _)
                    | PageEffect (DiskIISetBinary _ _ _ _) => true
                    | _ => false
                    end) actions.

Definition is_stop (e : Effect) : bool :=
  match e with LoadingStop => true | _ => false end.

Definition is_alert (e : Effect) : bool :=
  match e with OpenAlert _ => true | _ => false end.

(** The character [c] occurs in [s]. *)
Fixpoint occurs (c : Ascii.ascii) (s : string) : bool :=
  match s with
  | EmptyString => false
  | String c' rest => Ascii.eqb c' c || occurs c rest
  end.

(** The index of a drive's entry in the URL fragment. *)
Definition entry_of (drive : DriveNumber) : nat :=
  Z.to_nat (drive_number drive - 1).

End LoaderVocabulary2.

Module LoadExamples.
Import UI.

Definition imports : Imports :=
  {| TAPE_TYPES := ["wav"; "aiff"; "mp3"]; DRIVE_NUMBERS := [1; 2]%Z |}.

End LoadExamples.

Section SessionVocabulary.
Import Apple2.

(** What holds of every page: the emulator is as a reachable one
    (schedule and counters), and stopped while the page is paused. *)
Definition session_ok (s : Session.t) : Prop :=
  scheduled (Session.emulator s) ∧
  (Session.paused s = true → idle (Session.emulator s)).

End SessionVocabulary.

Module SessionExamples.

(** A IIe page loaded without a fragment (so running), then paused. *)
Definition paused_page : Session.t :=
  Session.react (Session.PauseRun 5000)
    (Session.onLoaded false 1000
       (Apple2.boot true
          (Apple2.new true false Examples.cpu_reset Examples.io_reset
             Examples.mmu_reset))).

End SessionExamples.

(** * Properties *)

(** ** The state monad of [Apple2] *)

Section Monad.
Import Apple2.

#[local] Arguments for_each : simpl never.

Lemma for_each_nil {A} (f : A → M unit) w : for_each f [] w = (tt, w).
Proof. reflexivity. Qed.

Lemma for_each_cons {A} (f : A → M unit) v l w :
  for_each f (v :: l) w = for_each f l (f v w).2.
Proof.
  unfold for_each; cbn. unfold mbind, M_bind. destruct (f v w).
  reflexivity.
Qed.

Lemma on_instruction_run line w :
  on_instruction line w =
  (tt, if TRACE (apple2 w)
       then {| apple2 := apple2 w; host := host w; closures := closures w;
               calls := calls w ++ [Debug line] |}
       else {| apple2 := push_trace line (apple2 w); host := host w;
               closures := closures w; calls := calls w |}).
Proof.
  unfold on_instruction, mbind, M_bind, this.
  destruct (TRACE (apple2 w)); reflexivity.
Qed.

Lemma hooked_cons c cs w :
  hooked (c :: cs) w = hooked cs (exec (hook_call c) w).
Proof. reflexivity. Qed.

Lemma for_each_hook cs w : for_each hook_call cs w = (tt, hooked cs w).
Proof.
  revert w. induction cs as [|c cs IH]; intros w; [done|].
  rewrite for_each_cons, IH. reflexivity.
Qed.

End Monad.

(** ** One tick in closed form *)

Section Tick.
Import Apple2.

#[local] Arguments for_each : simpl never.
#[local] Arguments hooked : simpl never.

Lemma for_each_on_instruction lines w :
  for_each on_instruction lines w =
  (tt, {| apple2 := traced (apple2 w) lines; host := host w;
          closures := closures w;
          calls := calls w ++ debug_calls (apple2 w) lines |}).
Proof.
  unfold traced, debug_calls.
  revert w. induction lines as [|l lines IH]; intros [a h c k].
  - rewrite for_each_nil; cbn.
    destruct (TRACE a); cbn; rewrite ?app_nil_r; reflexivity.
  - rewrite for_each_cons, on_instruction_run, IH; cbn.
    destruct (TRACE a) eqn:E; cbn; rewrite ?E.
    + rewrite <- app_assoc. reflexivity.
    + reflexivity.
Qed.

Lemma foldl_push_trace lines a :
  ∃ tr, foldl (λ a line, push_trace line a) a lines = set_trace tr a.
Proof.
  revert a. induction lines as [|l lines IH]; intros a; cbn.
  - exists (trace a). destruct a; reflexivity.
  - destruct (IH (push_trace l a)) as [tr ->]. exists tr. reflexivity.
Qed.

Lemma traced_set_trace a lines :
  traced a lines = set_trace (trace (traced a lines)) a.
Proof.
  unfold traced. destruct (TRACE a); [destruct a; reflexivity|].
  destruct (foldl_push_trace lines a) as [tr ->]. reflexivity.
Qed.

Lemma runFn_run cid obs w :
  runFn cid obs w = (tt, rescheduled cid (hooked (hook obs) (ticked cid obs w))).
Proof.
  destruct w as [a h c k].
  unfold runFn, rescheduled, ticked, tick_calls, cpu_calls, blit_calls,
    counted, consulted_blit, stepped, reschedules.
  unfold mbind, M_bind, this, get_last, set_last, when, call, update,
    host_get, host_op, mret, M_ret; cbn.
  destruct (DEBUG a) eqn:HD; cbn.
  - rewrite for_each_on_instruction; cbn.
    rewrite (traced_set_trace (set_hardware (after_step obs) a)).
    generalize (trace (traced (set_hardware (after_step obs) a)
                         (debug_lines obs))) as tr; intros tr.
    unfold debug_calls.
    destruct a as [pa de trc mt tr0 rt rf cp i [m|] rm ms st], h as [ra fr iv lh],
      obs as [nw [hc hi hm hr] ls vb ib hk]; cbn in *; subst de.
    all: destruct (Apple2IO.annunciator 0 hi), ms, ib, vb, trc;
      cbn; rewrite for_each_hook; cbn; rewrite <- ?app_assoc; cbn;
      match goal with
      | |- context [hooked ?cs ?W] => generalize (hooked cs W)
      end; intros [a' [ra' fr' iv' lh'] c' k']; cbn;
      destruct (paused a'), ra'; reflexivity.
  - destruct a as [pa de trc mt tr0 rt rf cp i [m|] rm ms st], h as [ra fr iv lh],
      obs as [nw [hc hi hm hr] ls vb ib hk]; cbn in *; subst de.
    all: destruct (Apple2IO.annunciator 0 hi), ms, ib, vb;
      cbn; rewrite for_each_hook; cbn; rewrite <- ?app_assoc; cbn;
      match goal with
      | |- context [hooked ?cs ?W] => generalize (hooked cs W)
      end; intros [a' [ra' fr' iv' lh'] c' k']; cbn;
      destruct (paused a'), ra'; reflexivity.
Qed.

End Tick.

(** ** [run], [stop] and the events in closed form *)

Section Schedule.
Import Apple2.

Lemma run_run date_now w :
  run date_now w =
  (tt,
   let a := apple2 w in
   let h := host w in
   let cid := length (closures w) in
   if running a then w
   else if Host.raf_available h then
     {| apple2 := set_runAnimationFrame (Some (Host.last_handle h + 1)%Z) a;
        host := (Host.requestAnimationFrame cid h).2;
        closures := closures w ++ [date_now]; calls := calls w |}
   else
     {| apple2 := set_runTimer (Some (Host.last_handle h + 1)%Z) a;
        host := (Host.setInterval cid h).2;
        closures := closures w ++ [date_now]; calls := calls w |}).
Proof.
  destruct w as [a [ra fr iv lh] c k]. unfold run, running.
  unfold mbind, M_bind, this, new_closure, update, host_get, host_op,
    mret, M_ret; cbn.
  destruct (JS.truthy (runTimer a) || JS.truthy (runAnimationFrame a));
    [reflexivity|].
  destruct ra; reflexivity.
Qed.

Lemma stop_run w :
  stop w =
  (tt,
   let a := apple2 w in
   {| apple2 := set_runAnimationFrame None (set_runTimer None a);
      host := cancelled (runAnimationFrame a) Host.cancelAnimationFrame
                (cancelled (runTimer a) Host.clearInterval (host w));
      closures := closures w; calls := calls w |}).
Proof.
  destruct w as [a h c k]. unfold stop, cancelled.
  unfold mbind, M_bind, this, when_handle, update, host_do, host_op,
    mret, M_ret; cbn.
  destruct (runTimer a) as [rt|], (runAnimationFrame a) as [rf|]; cbn;
    repeat match goal with |- context [(?z =? 0)%Z] => destruct (z =? 0)%Z end;
    reflexivity.
Qed.

Lemma react_tick e w cid obs :
  tick_of e w = Some (cid, obs) →
  exec (react e) w =
  exec (runFn cid obs)
    (match e with
     | AnimationFrame id _ => with_host (Host.take_frame id (host w)) w
     | _ => w
     end).
Proof.
  destruct w as [a h c k].
  destruct e as [| | |id o|id o|]; cbn; try discriminate.
  - unfold exec, mbind, M_bind, host_get, host_do, host_op; cbn.
    destruct (Host.frame_requests h !! id); cbn; [|discriminate].
    intros [= -> ->]. reflexivity.
  - unfold exec, mbind, M_bind, host_get; cbn.
    destruct (Host.intervals h !! id); cbn; [|discriminate].
    intros [= -> ->]. reflexivity.
Qed.

Lemma react_not_tick e w :
  is_tick e w = false → is_run e = false →
  exec (react e) w =
  match e with
  | Stop => exec stop w
  | SetState state =>
      {| apple2 := setState state (apple2 w); host := host w;
         closures := closures w; calls := calls w |}
  | Outside hw =>
      {| apple2 := set_hardware hw (apple2 w); host := host w;
         closures := closures w; calls := calls w |}
  | _ => w
  end.
Proof.
  unfold is_tick. destruct w as [a h c k].
  destruct e as [| | |id o|id o|]; cbn; try reflexivity; try discriminate.
  - unfold exec, mbind, M_bind, host_get; cbn.
    destruct (Host.frame_requests h !! id); cbn; [discriminate|reflexivity].
  - unfold exec, mbind, M_bind, host_get; cbn.
    destruct (Host.intervals h !! id); cbn; [discriminate|reflexivity].
Qed.

End Schedule.

(** ** What holds of every reachable emulator *)

Section Invariant.
Import Apple2.

#[local] Arguments hooked : simpl never.

(** The fields a tick leaves alone, and what it does to the counters. *)
Lemma counted_stepped obs a :
  let a2 := counted obs (stepped obs a) in
  paused a2 = paused a ∧ DEBUG a2 = DEBUG a ∧
  runTimer a2 = runTimer a ∧ runAnimationFrame a2 = runAnimationFrame a ∧
  frames (stats a2) = (frames (stats a) + 1)%Z ∧
  renderedFrames (stats a2) =
    (renderedFrames (stats a) +
     if consulted_blit obs (stepped obs a) then 1 else 0)%Z.
Proof.
  unfold counted, stepped, consulted_blit.
  destruct (DEBUG a) eqn:HD.
  - rewrite (traced_set_trace (set_hardware (after_step obs) a)).
    generalize (trace (traced (set_hardware (after_step obs) a)
                         (debug_lines obs))); intros tr.
    destruct a, obs as [nw [hc hi hm hr] ls vb ib hk]; cbn in *.
    destruct (Apple2IO.annunciator 0 hi), ib, vb; cbn;
      repeat split; try done; lia.
  - destruct a, obs as [nw [hc hi hm hr] ls vb ib hk]; cbn in *.
    destruct (Apple2IO.annunciator 0 hi), ib, vb; cbn;
      repeat split; try done; lia.
Qed.

Lemma truthy_positive id : (0 < id)%Z → JS.truthy (Some id) = true.
Proof. intros Hid. cbn. destruct (Z.eqb_spec id 0); [lia|reflexivity]. Qed.

Ltac open_world w :=
  destruct w as [[pa de trc mt tr rt rf cp i mm rm ms st] [ra fr iv lh] c k];
  cbn in *.

Lemma subseteq_empty (m : gmap Z nat) : m ⊆ ∅ → m = ∅.
Proof.
  intros Hsub. apply map_empty. intros id.
  destruct (m !! id) as [cid|] eqn:E; [|done].
  apply (lookup_weaken _ _ _ _ E) in Hsub. by rewrite lookup_empty in Hsub.
Qed.

(** *** What [run()], [stop()] and the hook leave alone *)

Lemma machine_fields a a' :
  machine a' = machine a →
  paused a' = paused a ∧ DEBUG a' = DEBUG a ∧ TRACE a' = TRACE a ∧
  MAX_TRACE a' = MAX_TRACE a ∧ trace a' = trace a ∧ cpu a' = cpu a ∧
  io a' = io a ∧ mmu a' = mmu a ∧ ram a' = ram a ∧
  multiScreen a' = multiScreen a ∧ stats a' = stats a.
Proof. destruct a, a'; cbn. intros [=]; subst. done. Qed.

Lemma run_frame date_now w :
  machine (apple2 (exec (run date_now) w)) = machine (apple2 w) ∧
  calls (exec (run date_now) w) = calls w ∧
  closures w `prefix_of` closures (exec (run date_now) w) ∧
  Host.raf_available (host (exec (run date_now) w)) =
    Host.raf_available (host w).
Proof.
  unfold exec. rewrite run_run. cbn.
  destruct (running (apple2 w)); [done|].
  destruct (Host.raf_available (host w)) eqn:E; cbn.
  all: split_and!; try done; try (by apply prefix_app_r);
    by destruct (apple2 w).
Qed.

Lemma stop_frame w :
  machine (apple2 (exec stop w)) = machine (apple2 w) ∧
  calls (exec stop w) = calls w ∧
  closures (exec stop w) = closures w ∧
  Host.raf_available (host (exec stop w)) = Host.raf_available (host w) ∧
  Host.last_handle (host (exec stop w)) = Host.last_handle (host w) ∧
  Host.frame_requests (host (exec stop w)) ⊆ Host.frame_requests (host w) ∧
  Host.intervals (host (exec stop w)) ⊆ Host.intervals (host w).
Proof.
  unfold exec. rewrite stop_run. cbn.
  split; [by destruct (apple2 w)|]. split; [done|]. split; [done|].
  unfold cancelled.
  destruct (runTimer (apple2 w)) as [t1|],
    (runAnimationFrame (apple2 w)) as [t2|]; cbn;
    repeat match goal with |- context [(?z =? 0)%Z] => destruct (z =? 0)%Z end;
    cbn; split_and!; try done; apply delete_subseteq.
Qed.

Lemma hooked_frame cs w :
  machine (apple2 (hooked cs w)) = machine (apple2 w) ∧
  calls (hooked cs w) = calls w ∧
  closures w `prefix_of` closures (hooked cs w) ∧
  Host.raf_available (host (hooked cs w)) = Host.raf_available (host w).
Proof.
  revert w. induction cs as [|c cs IH]; intros w; [done|].
  rewrite hooked_cons.
  destruct (IH (exec (hook_call c) w)) as (Hm & Hc & Hp & Hr).
  rewrite Hm, Hc, Hr. destruct c as [d|]; cbn [hook_call] in *.
  - destruct (run_frame d w) as (-> & -> & Hp' & ->).
    split_and!; try done. by etrans.
  - destruct (stop_frame w) as (-> & -> & Hcl & -> & _).
    split_and!; try done. by rewrite <- Hcl.
Qed.

(** *** Every emulator *)

Lemma wired_boot raf e multi cpu0 io0 mmu0 :
  wired (boot raf (new e multi cpu0 io0 mmu0)).
Proof.
  split_and!; cbn; try done.
  - by destruct raf.
  - intros cid [id [Hreq|Hreq]]; cbn in Hreq; by rewrite lookup_empty in Hreq.
Qed.

Lemma wired_run date_now w : wired w → wired (exec (run date_now) w).
Proof.
  intros (Hp & Hd & Hl & Ht & Hf & Hx & Hc).
  unfold exec. rewrite run_run. cbn.
  destruct (running (apple2 w)); [by split_and!|].
  destruct (Host.raf_available (host w)) eqn:Hraf.
  - destruct Hx as [Hrt Hiv].
    unfold wired, pending; cbn.
    split_and!; try done; try lia.
    + intros id [= <-]. lia.
    + intros cid [id [Hreq|Hreq]]; rewrite length_app; cbn.
      * apply lookup_insert_Some in Hreq as [[_ <-]|[_ Hreq]]; [lia|].
        assert (cid < length (closures w)) by (apply Hc; exists id; by left).
        lia.
      * assert (cid < length (closures w)) by (apply Hc; exists id; by right).
        lia.
  - destruct Hx as [Hrf Hfr].
    unfold wired, pending; cbn.
    split_and!; try done; try lia.
    + intros id [= <-]. lia.
    + intros cid [id [Hreq|Hreq]]; rewrite length_app; cbn.
      * assert (cid < length (closures w)) by (apply Hc; exists id; by left).
        lia.
      * apply lookup_insert_Some in Hreq as [[_ <-]|[_ Hreq]]; [lia|].
        assert (cid < length (closures w)) by (apply Hc; exists id; by right).
        lia.
Qed.

Lemma wired_stop w : wired w → wired (exec stop w).
Proof.
  intros (Hp & Hd & Hl & Ht & Hf & Hx & Hc).
  destruct (stop_frame w) as (Hm & _ & Hcl & Hraf & Hlh & Hfr & Hiv).
  destruct (machine_fields _ _ Hm) as (Hp' & Hd' & _).
  assert (runTimer (apple2 (exec stop w)) = None ∧
          runAnimationFrame (apple2 (exec stop w)) = None) as [Ht' Hf'].
  { unfold exec. rewrite stop_run. done. }
  unfold wired. rewrite Hp', Hd', Hlh, Hraf, Ht', Hf', Hcl.
  split_and!; try done.
  - destruct (Host.raf_available (host w)); destruct Hx as [_ He];
      (split; [done|]); rewrite He in *; by apply subseteq_empty.
  - intros cid [id [Hreq|Hreq]]; apply Hc; exists id; [left|right];
      by eapply lookup_weaken.
Qed.

Lemma wired_hooked cs w : wired w → wired (hooked cs w).
Proof.
  revert w. induction cs as [|[d|] cs IH]; intros w Hw; [done|..];
    rewrite hooked_cons; apply IH; cbn [hook_call];
    [by apply wired_run | by apply wired_stop].
Qed.

Lemma wired_take id w :
  wired w → wired (with_host (Host.take_frame id (host w)) w).
Proof.
  intros (Hp & Hd & Hl & Ht & Hf & Hx & Hc).
  unfold wired, pending; cbn. split_and!; try done.
  - destruct (Host.raf_available (host w)); destruct Hx as [H1 H2];
      (split; [done|]); [done|]. rewrite H2. apply delete_empty.
  - intros cid [id' [Hreq|Hreq]]; apply Hc; exists id'; [left|by right].
    by apply lookup_delete_Some in Hreq as [_ Hreq].
Qed.

Lemma wired_ticked cid obs w : wired w → wired (ticked cid obs w).
Proof.
  intros (Hp & Hd & Hl & Ht & Hf & Hx & Hc).
  destruct (counted_stepped obs (apple2 w)) as (Ep & Ed & Et & Er & _).
  unfold wired, pending, ticked; cbn [apple2 host closures].
  rewrite Ep, Ed, Et, Er, length_insert. done.
Qed.

Lemma wired_rescheduled cid w :
  wired w → cid < length (closures w) → wired (rescheduled cid w).
Proof.
  intros Hw Hcid. pose proof Hw as (Hp & Hd & Hl & Ht & Hf & Hx & Hc).
  unfold rescheduled, reschedules. rewrite Hp; cbn [negb andb].
  destruct (Host.raf_available (host w)) eqn:Hraf; [|done].
  destruct Hx as [Hrt Hiv].
  unfold wired, pending; cbn. rewrite Hraf.
  split_and!; try done; try lia.
  - intros id [= <-]. lia.
  - intros c [id [Hreq|Hreq]].
    + apply lookup_insert_Some in Hreq as [[_ <-]|[_ Hreq]]; [done|].
      apply Hc. exists id. by left.
    + apply Hc. exists id. by right.
Qed.

Lemma tick_pending e w cid obs :
  tick_of e w = Some (cid, obs) → pending w cid.
Proof.
  destruct e as [| | |id o|id o|]; cbn; try discriminate.
  - destruct (Host.frame_requests (host w) !! id) as [c|] eqn:Hreq;
      [|discriminate].
    intros [= -> ->]. exists id. by left.
  - destruct (Host.intervals (host w) !! id) as [c|] eqn:Hreq;
      [|discriminate].
    intros [= -> ->]. exists id. by right.
Qed.

Lemma wired_react e w : wired w → wired (exec (react e) w).
Proof.
  intros Hw.
  destruct (tick_of e w) as [[cid obs]|] eqn:Ht.
  - pose proof Hw as (_ & _ & _ & _ & _ & _ & Hc).
    pose proof (Hc _ (tick_pending _ _ _ _ Ht)) as Hcid.
    rewrite (react_tick _ _ _ _ Ht). unfold exec. rewrite runFn_run.
    cbn [snd].
    assert (∀ w0, wired w0 → closures w0 = closures w →
                  wired (rescheduled cid (hooked (hook obs) (ticked cid obs w0))))
      as Hgo.
    { intros w0 Hw0 Hcl. apply wired_rescheduled.
      - by apply wired_hooked, wired_ticked.
      - destruct (hooked_frame (hook obs) (ticked cid obs w0))
          as (_ & _ & Hpre & _).
        apply prefix_length in Hpre. cbn in Hpre.
        rewrite length_insert, Hcl in Hpre. lia. }
    destruct e; try discriminate; apply Hgo; try done.
    by apply wired_take.
  - destruct e as [d| |snap|id o|id o|hw].
    + by apply wired_run.
    + by apply wired_stop.
    + destruct Hw as (Hp & Hd & Hl & Hrt & Hf & Hx & Hc). open_world w.
      split_and!; try done.
    + rewrite react_not_tick; [done| |done]. unfold is_tick. rewrite Ht. done.
    + rewrite react_not_tick; [done| |done]. unfold is_tick. rewrite Ht. done.
    + destruct Hw as (Hp & Hd & Hl & Hrt & Hf & Hx & Hc). open_world w.
      split_and!; try done.
Qed.

Lemma reachable_wired w : reachable w → wired w.
Proof.
  induction 1; [apply wired_boot | by apply wired_react].
Qed.

(** *** Emulators whose hook has not restarted them *)

Lemma scheduled_boot raf e multi cpu0 io0 mmu0 :
  scheduled (boot raf (new e multi cpu0 io0 mmu0)).
Proof. split_and!; cbn; try done. left. done. Qed.

(** After [run()] there is a tick source. *)
Lemma run_busy date_now w :
  scheduled w →
  paused (apple2 (exec (run date_now) w)) = false ∧
  DEBUG (apple2 (exec (run date_now) w)) = false ∧
  (0 ≤ Host.last_handle (host (exec (run date_now) w)))%Z ∧
  (on_frames (exec (run date_now) w) ∨ on_interval (exec (run date_now) w)).
Proof.
  unfold exec. rewrite run_run. cbn.
  intros (Hp & Hd & Hl & [Hi | [Hf | Hv]]).
  - destruct Hi as (Ht & Hr & Hfr & Hiv). unfold running.
    rewrite Ht, Hr; cbn.
    destruct (Host.raf_available (host w)) eqn:Hraf.
    + open_world w. subst. split_and!; cbn; try done; try lia.
      left. split_and!; cbn; try done.
      exists (lh + 1)%Z, (length c). rewrite length_app; cbn.
      split_and!; cbn; try done; try lia.
    + open_world w. subst. split_and!; cbn; try done; try lia.
      right. split_and!; cbn; try done.
      exists (lh + 1)%Z, (length c). rewrite length_app; cbn.
      split_and!; cbn; try done; try lia.
  - assert (running (apple2 w) = true) as ->; [|by split_and!; auto].
    destruct Hf as (_ & Ht & _ & id & cid & Hid & _ & Hr & _).
    unfold running. rewrite Ht, Hr, truthy_positive; done.
  - assert (running (apple2 w) = true) as ->; [|by split_and!; auto].
    destruct Hv as (_ & Hr & _ & id & cid & Hid & _ & Ht & _).
    unfold running. rewrite Ht, Hr, truthy_positive; done.
Qed.

Lemma scheduled_run date_now w :
  scheduled w → scheduled (exec (run date_now) w).
Proof.
  intros Hs. destruct (run_busy date_now w Hs) as (Hp & Hd & Hl & Hb).
  split_and!; auto.
Qed.

(** A running emulator's call of [run()] is a no-op. *)
Lemma run_running date_now w :
  running (apple2 w) = true → exec (run date_now) w = w.
Proof. intros Hrun. unfold exec. rewrite run_run. cbn. by rewrite Hrun. Qed.

Lemma busy_running w :
  scheduled w → ¬ idle w → running (apple2 w) = true.
Proof.
  intros (Hp & Hd & Hl & [Hi | [Hf | Hv]]) Hn; [done| |].
  - destruct Hf as (_ & Ht & _ & id & cid & Hid & _ & Hr & _).
    unfold running. rewrite Ht, Hr, truthy_positive; done.
  - destruct Hv as (_ & Hr & _ & id & cid & Hid & _ & Ht & _).
    unfold running. rewrite Ht, Hr, truthy_positive; done.
Qed.

Lemma stop_idle w : scheduled w → idle (exec stop w).
Proof.
  unfold exec. rewrite stop_run. cbn.
  intros (Hp & Hd & Hl & [Hi | [Hf | Hv]]).
  - destruct Hi as (Ht & Hr & Hfr & Hiv). rewrite Ht, Hr. done.
  - destruct Hf as (_ & Ht & Hiv & id & cid & Hid & _ & Hr & Hfr).
    rewrite Ht, Hr. unfold cancelled. rewrite truthy_positive by done.
    split_and!; cbn; try done. cbn. rewrite Hfr. apply delete_singleton_eq.
  - destruct Hv as (_ & Hr & Hfr & id & cid & Hid & _ & Ht & Hiv).
    rewrite Ht, Hr. unfold cancelled. rewrite truthy_positive by done.
    split_and!; cbn; try done. cbn. rewrite Hiv. apply delete_singleton_eq.
Qed.

Lemma scheduled_stop w : scheduled w → scheduled (exec stop w).
Proof.
  intros Hs. pose proof (stop_idle w Hs) as Hi.
  destruct Hs as (Hp & Hd & Hl & _).
  destruct (stop_frame w) as (Hm & _ & _ & _ & Hlh & _).
  destruct (machine_fields _ _ Hm) as (Hp' & Hd' & _).
  split_and!; [congruence|congruence|by rewrite Hlh|by left].
Qed.

Lemma stop_twice w : exec stop (exec stop w) = exec stop w.
Proof.
  unfold exec. rewrite !stop_run. cbn.
  destruct w as [a h c k], a; reflexivity.
Qed.

Lemma hooked_stops cs w :
  forallb is_hook_stop cs = true → hooked cs (exec stop w) = exec stop w.
Proof.
  induction cs as [|[d|] cs IH]; cbn [forallb is_hook_stop andb];
    intros Hcs; [done|discriminate|].
  rewrite hooked_cons; cbn [hook_call]. rewrite stop_twice. by apply IH.
Qed.

(** What a hook that does not restart makes of an emulator in a tick:
    its calls of [run()] do nothing, its first [stop()] stops. *)
Lemma hooked_calm cs w :
  running (apple2 w) = true → calm_hook cs = true →
  hooked cs w = if existsb is_hook_stop cs then exec stop w else w.
Proof.
  intros Hrun. induction cs as [|[d|] cs IH];
    cbn [calm_hook existsb is_hook_stop orb]; intros Hcalm.
  - done.
  - rewrite hooked_cons; cbn [hook_call]. rewrite run_running by done.
    by apply IH.
  - rewrite hooked_cons; cbn [hook_call]. by apply hooked_stops.
Qed.

Lemma scheduled_ticked cid obs w : scheduled w → scheduled (ticked cid obs w).
Proof.
  intros Hs.
  destruct (counted_stepped obs (apple2 w)) as (Ep & Ed & Et & Er & _).
  unfold scheduled, idle, on_frames, on_interval, ticked in *;
    cbn [apple2 host closures].
  rewrite Ep, Ed, Et, Er. setoid_rewrite length_insert. done.
Qed.

Lemma rescheduled_timer cid w :
  Host.raf_available (host w) = false → rescheduled cid w = w.
Proof.
  intros Hraf. unfold rescheduled, reschedules.
  by rewrite Hraf, andb_false_r.
Qed.

(** Rescheduling when nothing is pending. *)
Lemma rescheduled_frames cid w :
  paused (apple2 w) = false → DEBUG (apple2 w) = false →
  (0 ≤ Host.last_handle (host w))%Z →
  Host.raf_available (host w) = true → runTimer (apple2 w) = None →
  Host.intervals (host w) = ∅ → Host.frame_requests (host w) = ∅ →
  cid < length (closures w) →
  scheduled (rescheduled cid w) ∧ on_frames (rescheduled cid w) ∧
  Host.frame_requests (host (rescheduled cid w)) =
    {[(Host.last_handle (host w) + 1)%Z := cid]}.
Proof.
  intros Hp Hd Hl Hraf Ht Hiv Hfr Hcid.
  unfold rescheduled, reschedules. rewrite Hp, Hraf; cbn [negb andb].
  assert (on_frames
    {| apple2 := set_runAnimationFrame
                   (Some (Host.last_handle (host w) + 1)%Z) (apple2 w);
       host := (Host.requestAnimationFrame cid (host w)).2;
       closures := closures w; calls := calls w |}) as Hon.
  { unfold on_frames; cbn. split_and!; try done.
    exists (Host.last_handle (host w) + 1)%Z, cid.
    split_and!; try done; try lia. rewrite Hfr. apply insert_empty. }
  split; [|split; [done|]].
  - unfold scheduled; cbn. split_and!; try done; try lia. right. by left.
  - cbn. rewrite Hfr. apply insert_empty.
Qed.

(** The world a scheduled callback runs in. *)
Lemma tick_closure w e cid obs :
  scheduled w → tick_of e w = Some (cid, obs) →
  cid < length (closures w) ∧
  ((∃ id, e = AnimationFrame id obs ∧ on_frames w ∧
          Host.frame_requests (host w) = {[id := cid]}) ∨
   (∃ id, e = IntervalElapsed id obs ∧ on_interval w ∧
          Host.intervals (host w) = {[id := cid]})).
Proof.
  intros (_ & _ & _ & Hs) Ht.
  destruct e as [| | |id o|id o|]; try discriminate; cbn in Ht.
  - destruct (Host.frame_requests (host w) !! id) as [c|] eqn:Hreq;
      [|discriminate].
    injection Ht as -> ->.
    destruct Hs as [(_ & _ & Hfr & _) | [Hf | (_ & _ & Hfr & _)]];
      try (rewrite Hfr in Hreq; done).
    pose proof Hf as (_ & _ & _ & id0 & cid0 & _ & Hlt & _ & Hfr).
    rewrite Hfr in Hreq. apply lookup_singleton_Some in Hreq as [<- <-].
    split; [done|]. left. by exists id0.
  - destruct (Host.intervals (host w) !! id) as [c|] eqn:Hreq;
      [|discriminate].
    injection Ht as -> ->.
    destruct Hs as [(_ & _ & _ & Hiv) | [(_ & _ & Hiv & _) | Hv]];
      try (rewrite Hiv in Hreq; done).
    pose proof Hv as (_ & _ & _ & id0 & cid0 & _ & Hlt & _ & Hiv).
    rewrite Hiv in Hreq. apply lookup_singleton_Some in Hreq as [<- <-].
    split; [done|]. right. by exists id0.
Qed.

(** A tick whose hook does not restart, in closed form. *)
Lemma tick_calm e w cid obs :
  scheduled w → tick_of e w = Some (cid, obs) →
  calm_hook (hook obs) = true →
  exec (react e) w =
  rescheduled cid
    (let m := ticked cid obs
                (match e with
                 | AnimationFrame id _ =>
                     with_host (Host.take_frame id (host w)) w
                 | _ => w
                 end) in
     if existsb is_hook_stop (hook obs) then exec stop m else m).
Proof.
  intros Hs Ht Hcalm. rewrite (react_tick _ _ _ _ Ht).
  unfold exec at 1. rewrite runFn_run. cbn [snd]. cbn zeta.
  rewrite hooked_calm; [done| |done].
  destruct (counted_stepped obs (apple2 w)) as (_ & _ & Et & Er & _).
  assert (running (apple2 w) = true) as Hrun.
  { apply busy_running; [done|]. intros (_ & _ & Hfr & Hiv).
    destruct (tick_closure w e cid obs Hs Ht) as [_ [(id & _ & _ & H)|(id & _ & _ & H)]].
    - rewrite Hfr in H. by apply (f_equal (λ m, m !! id)) in H;
        rewrite lookup_empty, lookup_singleton_eq in H.
    - rewrite Hiv in H. by apply (f_equal (λ m, m !! id)) in H;
        rewrite lookup_empty, lookup_singleton_eq in H. }
  unfold running in *. destruct e; cbn [ticked apple2 with_host];
    by rewrite Et, Er.
Qed.

Lemma scheduled_tick e w cid obs :
  scheduled w → tick_of e w = Some (cid, obs) →
  calm_hook (hook obs) = true →
  scheduled (exec (react e) w).
Proof.
  intros Hs Ht Hcalm. rewrite (tick_calm _ _ _ _ Hs Ht Hcalm). cbn zeta.
  destruct (tick_closure w e cid obs Hs Ht)
    as [Hcid [(id & -> & Hf & Hfr)|(id & -> & Hv & Hiv)]].
  - (* an animation frame *)
    set (m := ticked cid obs (with_host (Host.take_frame id (host w)) w)).
    destruct Hs as (Hp & Hd & Hl & _).
    destruct Hf as (Hraf & Hrt & Hiv & _).
    destruct (counted_stepped obs (apple2 w)) as (Ep & Ed & Et & Er & _).
    assert (paused (apple2 m) = false ∧ DEBUG (apple2 m) = false ∧
            (0 ≤ Host.last_handle (host m))%Z ∧
            Host.raf_available (host m) = true ∧
            runTimer (apple2 m) = None ∧ Host.intervals (host m) = ∅ ∧
            Host.frame_requests (host m) = ∅ ∧
            cid < length (closures m)) as (Hp1 & Hd1 & Hl1 & Hraf1 & Ht1 & Hiv1 & Hfr1 & Hc1).
    { unfold m, ticked; cbn [apple2 host closures with_host].
      rewrite Ep, Ed, Et, length_insert. split_and!; try done.
      cbn. rewrite Hfr. apply delete_singleton_eq. }
    destruct (existsb is_hook_stop (hook obs)).
    + destruct (stop_frame m) as (Hm & _ & Hcl & Hraf2 & Hlh & Hfr2 & Hiv2).
      destruct (machine_fields _ _ Hm) as (Hp2 & Hd2 & _).
      apply rescheduled_frames; try congruence.
      * unfold exec. rewrite stop_run. done.
      * rewrite Hiv1 in Hiv2. by apply subseteq_empty.
      * rewrite Hfr1 in Hfr2. by apply subseteq_empty.
    + by apply rescheduled_frames.
  - (* the interval *)
    pose proof Hv as (Hraf & _).
    destruct (existsb is_hook_stop (hook obs)).
    + rewrite rescheduled_timer.
      * by apply scheduled_stop, scheduled_ticked.
      * destruct (stop_frame (ticked cid obs w)) as (_ & _ & _ & -> & _). done.
    + rewrite rescheduled_timer by done. by apply scheduled_ticked.
Qed.

Lemma scheduled_react e w :
  scheduled w → calm e = true → scheduled (exec (react e) w).
Proof.
  intros Hs Hcalm.
  destruct (tick_of e w) as [[cid obs]|] eqn:Ht.
  - eapply scheduled_tick; [done..|].
    destruct e; try discriminate; cbn in Ht;
      destruct (_ !! _); try discriminate; by injection Ht as _ <-.
  - destruct e as [d| |snap|id o|id o|hw].
    + by apply scheduled_run.
    + by apply scheduled_stop.
    + destruct Hs as (Hp & Hd & Hl & Hs). open_world w.
      split_and!; try done.
    + rewrite react_not_tick; [done| |done]. unfold is_tick. rewrite Ht. done.
    + rewrite react_not_tick; [done| |done]. unfold is_tick. rewrite Ht. done.
    + destruct Hs as (Hp & Hd & Hl & Hs). open_world w.
      split_and!; try done.
Qed.

Lemma steady_scheduled w : steady w → scheduled w.
Proof.
  induction 1; [apply scheduled_boot | by apply scheduled_react].
Qed.

Lemma steady_reachable w : steady w → reachable w.
Proof.
  induction 1; [apply reachable_boot | by apply reachable_react].
Qed.

End Invariant.

(** ** Counters and the idle emulator *)

Section Counters.
Import Apple2.

#[local] Arguments hooked : simpl never.

Lemma rescheduled_frame cid w :
  machine (apple2 (rescheduled cid w)) = machine (apple2 w) ∧
  calls (rescheduled cid w) = calls w ∧
  closures (rescheduled cid w) = closures w.
Proof.
  unfold rescheduled. destruct (reschedules _ _); [|done].
  cbn. by destruct (apple2 w).
Qed.

(** The closures a hook makes hold the [Date.now()] of its [run()]s. *)
Lemma hooked_closures cs w :
  ∃ new, closures (hooked cs w) = closures w ++ new ∧
         Forall (λ d, HookRun d ∈ cs) new.
Proof.
  revert w. induction cs as [|c cs IH]; intros w.
  - exists []. by rewrite app_nil_r.
  - rewrite hooked_cons. destruct (IH (exec (hook_call c) w)) as (new & -> & Hnew).
    assert (Forall (λ d, HookRun d ∈ c :: cs) new) as Hnew'.
    { eapply Forall_impl; [exact Hnew|]. intros d Hd. by right. }
    destruct c as [d|]; cbn [hook_call].
    + unfold exec at 1. rewrite run_run. cbn.
      destruct (running (apple2 w)); [by exists new|].
      exists (d :: new). split.
      * destruct (Host.raf_available (host w)); cbn; by rewrite <- app_assoc.
      * apply Forall_cons. split; [by left|done].
    + destruct (stop_frame w) as (_ & _ & -> & _). by exists new.
Qed.

(** What a tick leaves, whatever its hook does. *)
Lemma tick_frame e w cid obs :
  tick_of e w = Some (cid, obs) →
  machine (apple2 (exec (react e) w)) =
    machine (counted obs (stepped obs (apple2 w))) ∧
  calls (exec (react e) w) =
    calls w ++ tick_calls obs (default 0%Z (closures w !! cid)) (apple2 w) ∧
  ∃ new, closures (exec (react e) w) = <[cid := now obs]> (closures w) ++ new ∧
         Forall (λ d, HookRun d ∈ hook obs) new.
Proof.
  intros Ht. rewrite (react_tick _ _ _ _ Ht).
  unfold exec. rewrite runFn_run. cbn [snd].
  assert (∀ w0 : World,
            match e with
            | AnimationFrame id _ =>
                with_host (Host.take_frame id (host w)) w
            | _ => w
            end = w0 →
            calls w0 = calls w ∧ closures w0 = closures w ∧
            apple2 w0 = apple2 w) as Hsame.
  { intros w0 <-. destruct e; done. }
  destruct (Hsame _ eq_refl) as (Hc & Hcl & Ha).
  generalize dependent (match e with
                        | AnimationFrame id _ =>
                            with_host (Host.take_frame id (host w)) w
                        | _ => w
                        end).
  intros w0 _ Hc Hcl Ha.
  destruct (rescheduled_frame cid (hooked (hook obs) (ticked cid obs w0)))
    as (-> & -> & ->).
  destruct (hooked_frame (hook obs) (ticked cid obs w0)) as (-> & -> & _).
  destruct (hooked_closures (hook obs) (ticked cid obs w0)) as (new & -> & Hnew).
  unfold ticked; cbn [apple2 calls closures].
  rewrite Ha, Hc, Hcl. split_and!; try done. by exists new.
Qed.

Lemma tick_log e w cid obs :
  tick_of e w = Some (cid, obs) →
  log_of e w =
  tick_calls obs (default 0%Z (closures w !! cid)) (apple2 w).
Proof.
  intros Ht. unfold log_of.
  destruct (tick_frame _ _ _ _ Ht) as (_ & -> & _).
  by rewrite drop_app_length.
Qed.

Lemma tick_stats e w cid obs :
  tick_of e w = Some (cid, obs) →
  let s := stats (apple2 w) in
  let s' := stats (apple2 (exec (react e) w)) in
  frames s' = (frames s + 1)%Z ∧
  renderedFrames s' =
    (renderedFrames s +
     if consulted_blit obs (stepped obs (apple2 w)) then 1 else 0)%Z.
Proof.
  intros Ht. cbn zeta.
  destruct (tick_frame _ _ _ _ Ht) as (Hm & _ & _).
  destruct (machine_fields _ _ Hm) as (_ & _ & _ & _ & _ & _ & _ & _ & _ & _ & ->).
  destruct (counted_stepped obs (apple2 w)) as (_ & _ & _ & _ & Hf & Hr).
  by rewrite Hf, Hr.
Qed.

(** The closures of an emulator: a tick stores its time in its own, a
    [run()] that starts the emulator makes one, and every other one is
    left as it is. *)
Lemma closures_react e w :
  ∃ new,
    closures (exec (react e) w) =
    match tick_of e w with
    | Some (cid, obs) => <[cid := now obs]> (closures w)
    | None => closures w
    end ++ new.
Proof.
  destruct (tick_of e w) as [[cid obs]|] eqn:Ht.
  - destruct (tick_frame _ _ _ _ Ht) as (_ & _ & new & -> & _). by exists new.
  - destruct e as [d| |snap|id o|id o|hw].
    + cbn. unfold exec. rewrite run_run. cbn.
      destruct (running (apple2 w)); [exists []; by rewrite app_nil_r|].
      exists [d]. by destruct (Host.raf_available (host w)).
    + exists []. rewrite app_nil_r. cbn.
      by destruct (stop_frame w) as (_ & _ & -> & _).
    + exists []. by rewrite app_nil_r.
    + exists []. rewrite app_nil_r, react_not_tick; [done| |done].
      unfold is_tick. by rewrite Ht.
    + exists []. rewrite app_nil_r, react_not_tick; [done| |done].
      unfold is_tick. by rewrite Ht.
    + exists []. by rewrite app_nil_r.
Qed.

Lemma closure_kept e w c x :
  closures w !! c = Some x → (∀ obs, tick_of e w ≠ Some (c, obs)) →
  closures (exec (react e) w) !! c = Some x.
Proof.
  intros Hx Hne. destruct (closures_react e w) as [new ->].
  apply lookup_app_l_Some.
  destruct (tick_of e w) as [[cid obs]|]; [|done].
  rewrite list_lookup_insert_ne; [done|]. intros ->. by apply (Hne obs).
Qed.

Lemma closure_kept_all es w c x :
  closures w !! c = Some x → untouched c es w →
  closures (react_all es w) !! c = Some x.
Proof.
  revert w. induction es as [|e es IH]; intros w Hx Hun; [done|].
  destruct Hun as [Hne Hun].
  change (react_all (e :: es) w) with (react_all es (exec (react e) w)).
  apply IH; [|done]. by apply closure_kept.
Qed.

Lemma tick_sets_last e w cid obs :
  wired w → tick_of e w = Some (cid, obs) →
  closures (exec (react e) w) !! cid = Some (now obs).
Proof.
  intros (_ & _ & _ & _ & _ & _ & Hc) Ht.
  pose proof (Hc _ (tick_pending _ _ _ _ Ht)) as Hcid.
  destruct (tick_frame _ _ _ _ Ht) as (_ & _ & new & -> & _).
  apply lookup_app_l_Some. by apply list_lookup_insert_eq.
Qed.

Lemma other_stats e w :
  tick_of e w = None →
  stats (apple2 (exec (react e) w)) = stats (apple2 w) ∧
  calls (exec (react e) w) = calls w.
Proof.
  intros Ht.
  destruct e as [d| |snap|id o|id o|hw].
  - cbn. unfold exec. rewrite run_run. cbn.
    destruct (running _); [done|]. by destruct (Host.raf_available _).
  - cbn. unfold exec. rewrite stop_run. done.
  - done.
  - rewrite react_not_tick; [done| |done]. unfold is_tick. by rewrite Ht.
  - rewrite react_not_tick; [done| |done]. unfold is_tick. by rewrite Ht.
  - done.
Qed.

Lemma stats_ok_react e w : stats_ok w → stats_ok (exec (react e) w).
Proof.
  unfold stats_ok. intros Hs.
  destruct (tick_of e w) as [[cid obs]|] eqn:Ht.
  - destruct (tick_stats _ _ _ _ Ht) as [-> ->].
    destruct (consulted_blit _ _); lia.
  - destruct (other_stats _ _ Ht) as [-> _]. done.
Qed.

Lemma reachable_stats_ok w : reachable w → stats_ok w.
Proof.
  induction 1; [unfold stats_ok; cbn; lia | by apply stats_ok_react].
Qed.

Lemma idle_no_tick e w : idle w → tick_of e w = None.
Proof.
  intros (_ & _ & Hfr & Hiv).
  destruct e; cbn; try done; [rewrite Hfr | rewrite Hiv]; done.
Qed.

Lemma idle_react e w :
  idle w → is_run e = false → idle (exec (react e) w).
Proof.
  intros Hi Hr. pose proof (idle_no_tick e w Hi) as Ht.
  rewrite react_not_tick; [|unfold is_tick; by rewrite Ht|done].
  destruct e as [d| |snap|id o|id o|hw]; try done.
  - unfold exec. rewrite stop_run.
    destruct Hi as (Ht1 & Hr1 & Hfr & Hiv). unfold idle; cbn.
    rewrite Ht1, Hr1. done.
Qed.

Lemma idle_react_all es w :
  idle w → Forall (λ e, is_run e = false) es →
  idle (react_all es w) ∧ calls (react_all es w) = calls w ∧
  stats (apple2 (react_all es w)) = stats (apple2 w).
Proof.
  intros Hi Hes. revert w Hi.
  induction Hes as [|e es He Hes IH]; intros w Hi; [done|].
  change (react_all (e :: es) w) with (react_all es (exec (react e) w)).
  destruct (IH _ (idle_react e w Hi He)) as (Hi' & -> & ->).
  destruct (other_stats e w (idle_no_tick e w Hi)) as [-> ->]. done.
Qed.

End Counters.

(** ** Snapshots *)

Section Snapshots.
Import Apple2.

(** C1, as stated, fails: two reachable II+ (and two reachable IIe) that
    differ in memory and I/O latches (in MMU latches) have the same
    [getState()]; so the snapshot does not hold the MMU latches, the I/O
    latches or the RAM banks. *)
Lemma getState_omits_hardware :
  (reachable Examples.plus ∧ reachable Examples.plus' ∧
   getState (apple2 Examples.plus) = getState (apple2 Examples.plus') ∧
   ram (apple2 Examples.plus) ≠ ram (apple2 Examples.plus') ∧
   io (apple2 Examples.plus) ≠ io (apple2 Examples.plus')) ∧
  (reachable Examples.iie ∧ reachable Examples.iie' ∧
   getState (apple2 Examples.iie) = getState (apple2 Examples.iie') ∧
   mmu (apple2 Examples.iie) ≠ mmu (apple2 Examples.iie')) ∧
  ¬ snapshot_is_complete.
Proof.
  assert (ram (apple2 Examples.plus) ≠ ram (apple2 Examples.plus')) as Hram.
  { intros Heq.
    apply (f_equal (λ r, b ← r !! 0; RAM.mem b !! 0)) in Heq.
    discriminate Heq. }
  split_and!.
  - apply reachable_boot.
  - apply reachable_react, reachable_boot.
  - reflexivity.
  - exact Hram.
  - discriminate.
  - apply reachable_boot.
  - apply reachable_react, reachable_boot.
  - reflexivity.
  - discriminate.
  - intros (_ & _ & _ & Hr). apply Hram, Hr. reflexivity.
Qed.

(** C1, amended: [getState()] returns the CPU's registers and cycle
    counter and nothing else: it is the same for any two emulators whose
    CPUs have the same registers and cycle count. *)
Theorem getState_cpu_only (a : t) :
  State.cpu (getState a) =
    {| CPU6502.st_a := CPU6502.a (cpu a); CPU6502.st_x := CPU6502.x (cpu a);
       CPU6502.st_y := CPU6502.y (cpu a); CPU6502.st_sp := CPU6502.sp (cpu a);
       CPU6502.st_pc := CPU6502.pc (cpu a); CPU6502.st_sr := CPU6502.sr (cpu a);
       CPU6502.st_cycles := CPU6502.cycles (cpu a) |} ∧
  ∀ b, CPU6502.getState (cpu b) = CPU6502.getState (cpu a) →
       getState b = getState a.
Proof.
  split; [reflexivity|]. intros b Hb. unfold getState. by rewrite Hb.
Qed.

Lemma getState_cpu_only_witness :
  CPU6502.getState (cpu (apple2 Examples.plus')) =
    CPU6502.getState (cpu (apple2 Examples.plus)) ∧
  getState (apple2 Examples.plus') = getState (apple2 Examples.plus).
Proof.
  split; [reflexivity|].
  apply (getState_cpu_only (apple2 Examples.plus)). reflexivity.
Defined.

(** C2: restoring the snapshot just taken changes nothing, in the
    emulator or around it, and the snapshot taken after a restore is the
    one restored. *)
Theorem setState_getState_roundtrip (w : World) :
  setState (getState (apple2 w)) (apple2 w) = apple2 w ∧
  exec (react (SetState (getState (apple2 w)))) w = w ∧
  getState (setState (getState (apple2 w)) (apple2 w)) = getState (apple2 w) ∧
  ∀ state, getState (setState state (apple2 w)) = state.
Proof.
  destruct w as [a h c k]; cbn.
  assert (setState (getState a) a = a) as Hid.
  { destruct a as [? ? ? ? ? ? ? [] ? ? ? ? ?]. reflexivity. }
  split_and!.
  - exact Hid.
  - unfold exec; cbn. by rewrite Hid.
  - by rewrite Hid.
  - intros [[]]. reflexivity.
Qed.

End Snapshots.

(** ** The run loop *)

Section RunLoop.
Import Apple2.

Lemma budget_min now last kHz :
  budget now last kHz = Z.min ((now - last) * kHz) (kHz * interval).
Proof. unfold budget. destruct (Z.gtb_spec ((now - last) * kHz) (kHz * interval)); lia. Qed.

Lemma reachable_react_all es w : reachable w → reachable (react_all es w).
Proof.
  revert w. induction es as [|e es IH]; intros w Hw; [done|].
  apply IH. by apply reachable_react.
Qed.

(** C3: a tick of a reachable emulator calls [cpu.stepCycles] once, with
    [min(elapsed * kHz, kHz * interval)], which is at most
    [kHz * interval]: [kHz] is what [io.getKHz()] answers, [interval] is 30
    and [elapsed] is the time since [last], the variable of the callback
    that ticks.  [last] is the time of that callback's previous tick; for
    a callback that has not ticked before, it is the [Date.now()] of the
    [run()] that made it (called by the page, or by the hook of a
    tick).  In an emulator whose hooks have not restarted it no other
    callback is scheduled: the callback's previous tick is the emulator's
    previous tick. *)
Theorem tick_budget_capped (w : World) (e : Event) (cid : nat) (obs : Obs) :
  reachable w → tick_of e w = Some (cid, obs) →
  ∃ last, closures w !! cid = Some last ∧
    (let kHz := Apple2IO.getKHz (io (apple2 w)) in
     let step := Z.min ((now obs - last) * kHz) (kHz * interval) in
     interval = 30%Z ∧
     List.filter is_cpu_step (log_of e w) = [StepCycles step] ∧
     (step ≤ kHz * interval)%Z) ∧
    (∀ w0 e0 obs0 es,
       reachable w0 → tick_of e0 w0 = Some (cid, obs0) →
       untouched cid es (exec (react e0) w0) →
       w = react_all es (exec (react e0) w0) →
       last = now obs0) ∧
    (∀ w0 date_now es,
       reachable w0 → running (apple2 w0) = false →
       cid = length (closures w0) →
       untouched cid es (exec (react (Run date_now)) w0) →
       w = react_all es (exec (react (Run date_now)) w0) →
       last = date_now) ∧
    (∀ w0 e0 cid0 obs0 es,
       reachable w0 → tick_of e0 w0 = Some (cid0, obs0) →
       length (closures w0) ≤ cid →
       cid < length (closures (exec (react e0) w0)) →
       untouched cid es (exec (react e0) w0) →
       w = react_all es (exec (react e0) w0) →
       HookRun last ∈ hook obs0) ∧
    (steady w → ∀ c, pending w c → c = cid).
Proof.
  intros Hw Ht.
  pose proof (reachable_wired w Hw) as (_ & Hd & _ & _ & _ & _ & Hc).
  pose proof (Hc _ (tick_pending _ _ _ _ Ht)) as Hcid.
  destruct (lookup_lt_is_Some_2 _ _ Hcid) as [last Hlast].
  exists last. split; [done|]. split_and!.
  - cbn zeta. rewrite (tick_log _ _ _ _ Ht), Hlast; cbn.
    unfold tick_calls, cpu_calls, blit_calls, stepped.
    rewrite Hd, budget_min.
    split_and!; [done| |lia].
    destruct (apple2 w) as [pa de trc mt tr rt rf cp i [m|] rm ms st],
      obs as [nw [hc hi hm hr] ls vb ib hk]; cbn.
    all: destruct (Apple2IO.annunciator 0 hi), ms; reflexivity.
  - intros w0 e0 obs0 es Hw0 Ht0 Hun ->.
    pose proof (tick_sets_last _ _ _ _ (reachable_wired _ Hw0) Ht0) as Hset.
    pose proof (closure_kept_all _ _ _ _ Hset Hun). congruence.
  - intros w0 d es Hw0 Hrun -> Hun ->.
    assert (closures (exec (react (Run d)) w0) !! length (closures w0) = Some d)
      as Hset.
    { cbn. unfold exec. rewrite run_run. cbn. rewrite Hrun.
      destruct (Host.raf_available (host w0)); cbn;
        by apply list_lookup_middle. }
    pose proof (closure_kept_all _ _ _ _ Hset Hun). congruence.
  - intros w0 e0 cid0 obs0 es Hw0 Ht0 Hge Hlt Hun ->.
    destruct (tick_frame _ _ _ _ Ht0) as (_ & _ & new & Hcl & Hnew).
    destruct (lookup_lt_is_Some_2 _ _ Hlt) as [x Hx].
    pose proof (closure_kept_all _ _ _ _ Hx Hun) as Hkept.
    assert (x = last) as -> by congruence.
    rewrite Hcl in Hx. apply lookup_app_Some in Hx as [Hx|[_ Hx]].
    + apply lookup_lt_Some in Hx. rewrite length_insert in Hx. lia.
    + by apply (Forall_lookup_1 _ _ _ _ Hnew Hx).
  - intros Hst c [id [Hreq|Hreq]].
    all: destruct (tick_closure w e cid obs (steady_scheduled w Hst) Ht)
      as [_ [(id' & _ & Hon & Hfr)|(id' & _ & Hon & Hiv)]].
    + rewrite Hfr in Hreq. by apply lookup_singleton_Some in Hreq as [_ <-].
    + destruct Hon as (_ & _ & Hfr & _). by rewrite Hfr, lookup_empty in Hreq.
    + destruct Hon as (_ & _ & Hiv & _). by rewrite Hiv, lookup_empty in Hreq.
    + rewrite Hiv in Hreq. by apply lookup_singleton_Some in Hreq as [_ <-].
Qed.

Lemma tick_budget_capped_witness :
  let w := exec (react Examples.frame) Examples.iie_running in
  reachable w ∧
  tick_of MoreExamples.late_frame w = Some (0, MoreExamples.late_obs) ∧
  List.filter is_cpu_step (log_of MoreExamples.late_frame w) =
    [StepCycles (Z.min ((5000 - 1016) * 1023) (1023 * 30))] ∧
  (Z.min ((5000 - 1016) * 1023) (1023 * 30) ≤ 1023 * 30)%Z.
Proof.
  cbn zeta.
  assert (reachable Examples.iie_running) as Hw0
    by apply reachable_react, reachable_boot.
  assert (reachable (exec (react Examples.frame) Examples.iie_running)) as Hw
    by apply reachable_react, Hw0.
  split; [exact Hw|]. split; [reflexivity|].
  destruct (tick_budget_capped _ MoreExamples.late_frame 0
              MoreExamples.late_obs Hw eq_refl)
    as (last & _ & (_ & Hlog & Hcap) & Hprev & _).
  rewrite (Hprev Examples.iie_running Examples.frame Examples.frame_obs []
             Hw0 eq_refl I eq_refl) in Hlog, Hcap.
  split; [exact Hlog | exact Hcap].
Defined.

Lemma filter_blit_debug n a lines rest :
  List.filter is_blit
    ((StepCyclesDebug n :: debug_calls a lines) ++ rest) =
  List.filter is_blit rest.
Proof.
  cbn. unfold debug_calls. destruct (TRACE a); [|done].
  induction lines; done.
Qed.

(** C4: when annunciator 0 is set after the CPU has stepped, a tick
    renders through [io.blit] (after [vm.blit] when [multiScreen]) and
    counts a rendered frame exactly when [io.blit] reports a change;
    otherwise it renders through [vm.blit] and counts a rendered frame
    exactly when [vm.blit] reports a change. *)
Theorem tick_render_selection (w : World) (e : Event) (cid : nat) (obs : Obs) :
  tick_of e w = Some (cid, obs) →
  let w' := exec (react e) w in
  let rendered w := renderedFrames (stats (apple2 w)) in
  if Apple2IO.annunciator 0 (hw_io (after_step obs)) then
    List.filter is_blit (log_of e w) =
      (if multiScreen (apple2 w) then [VmBlit; IoBlit] else [IoBlit]) ∧
    rendered w' = (rendered w + if io_blit_changed obs then 1 else 0)%Z
  else
    List.filter is_blit (log_of e w) = [VmBlit] ∧
    rendered w' = (rendered w + if vm_blit_changed obs then 1 else 0)%Z.
Proof.
  intros Ht. cbn zeta.
  destruct (tick_stats _ _ _ _ Ht) as [_ ->].
  rewrite (tick_log _ _ _ _ Ht).
  unfold tick_calls, cpu_calls, blit_calls, consulted_blit, stepped.
  destruct (DEBUG (apple2 w)).
  - rewrite (traced_set_trace (set_hardware (after_step obs) (apple2 w))).
    generalize (trace (traced (set_hardware (after_step obs) (apple2 w))
                         (debug_lines obs))); intros tr'.
    rewrite filter_blit_debug.
    destruct (apple2 w) as [pa de trc mt tr rt rf cp i [m|] rm ms st],
      obs as [nw [hc hi hm hr] ls vb ib]; cbn.
    all: destruct (Apple2IO.annunciator 0 hi), ms; done.
  - destruct (apple2 w) as [pa de trc mt tr rt rf cp i [m|] rm ms st],
      obs as [nw [hc hi hm hr] ls vb ib]; cbn.
    all: destruct (Apple2IO.annunciator 0 hi), ms; done.
Qed.

End RunLoop.

Section RunStop.
Import Apple2.

Lemma tick_render_selection_witness :
  tick_of Examples.timer_tick Examples.timer_running =
    Some (0, Examples.aux_obs) ∧
  List.filter is_blit (log_of Examples.timer_tick Examples.timer_running) =
    [VmBlit; IoBlit] ∧
  renderedFrames
    (stats (apple2 (exec (react Examples.timer_tick) Examples.timer_running)))
  = (renderedFrames (stats (apple2 Examples.timer_running)) + 1)%Z.
Proof.
  split; [reflexivity|].
  apply (tick_render_selection Examples.timer_running Examples.timer_tick 0
           Examples.aux_obs).
  reflexivity.
Defined.

(** C5: over every event [frames] and [renderedFrames] do not decrease;
    a tick adds exactly 1 to [frames] and at most 1 to [renderedFrames],
    anything else leaves both; [renderedFrames] never exceeds [frames];
    a new emulator has both at 0. *)
Theorem stats_monotone (w : World) (e : Event) :
  reachable w →
  let s := stats (apple2 w) in
  let s' := stats (apple2 (exec (react e) w)) in
  (frames s ≤ frames s')%Z ∧
  (renderedFrames s ≤ renderedFrames s')%Z ∧
  (if is_tick e w
   then frames s' = (frames s + 1)%Z ∧
        (renderedFrames s' ≤ renderedFrames s + 1)%Z
   else s' = s) ∧
  (0 ≤ renderedFrames s ≤ frames s)%Z ∧
  (0 ≤ renderedFrames s' ≤ frames s')%Z ∧
  ∀ raf e multi cpu0 io0 mmu0,
    stats (apple2 (boot raf (new e multi cpu0 io0 mmu0))) =
    {| frames := 0; renderedFrames := 0 |}.
Proof.
  intros Hw. cbn zeta.
  pose proof (reachable_stats_ok w Hw) as Hok.
  pose proof (reachable_stats_ok _ (reachable_react w e Hw)) as Hok'.
  unfold stats_ok in Hok, Hok'. unfold is_tick.
  destruct (tick_of e w) as [[cid obs]|] eqn:Ht.
  - destruct (tick_stats _ _ _ _ Ht) as [Hf Hr].
    rewrite bool_decide_eq_true_2 by eauto.
    destruct (consulted_blit _ _); split_and!; try done; lia.
  - destruct (other_stats _ _ Ht) as [Hs _].
    rewrite bool_decide_eq_false_2 by (intros [? [=]]).
    rewrite Hs in *. split_and!; try done; lia.
Qed.

Lemma stats_monotone_witness :
  reachable Examples.iie_running ∧
  let s := stats (apple2 Examples.iie_running) in
  let s' := stats (apple2 (exec (react Examples.frame) Examples.iie_running)) in
  (frames s ≤ frames s')%Z ∧
  (renderedFrames s ≤ renderedFrames s')%Z ∧
  (frames s' = (frames s + 1)%Z ∧
   (renderedFrames s' ≤ renderedFrames s + 1)%Z) ∧
  (0 ≤ renderedFrames s ≤ frames s)%Z ∧
  (0 ≤ renderedFrames s' ≤ frames s')%Z ∧
  ∀ raf e multi cpu0 io0 mmu0,
    stats (apple2 (boot raf (new e multi cpu0 io0 mmu0))) =
    {| frames := 0; renderedFrames := 0 |}.
Proof.
  assert (reachable Examples.iie_running) as Hw
    by apply reachable_react, reachable_boot.
  split; [exact Hw|].
  exact (stats_monotone Examples.iie_running Examples.frame Hw).
Defined.

(** C9 fails on the code, for a [stop()] that the [tick] hook calls on a
    browser with [requestAnimationFrame]: [stop()] leaves both handles
    null and nothing scheduled, but when the hook returns [runFn]
    reschedules itself ([paused], which it tests, is never set), so the
    emulator has a handle and a scheduled callback again and the next
    frame ticks without any [run()].  On the interval timer the same hook
    does stop the emulator. *)
Lemma stop_in_hook_undone :
  let w := Examples.iie_running in
  let w1 := exec (react Examples.stopping_frame) w in
  reachable w ∧
  tick_of Examples.stopping_frame w = Some (0, Examples.stopping_obs) ∧
  hook Examples.stopping_obs = [HookStop] ∧
  idle (exec stop (ticked 0 Examples.stopping_obs
                     (with_host (Host.take_frame 1 (host w)) w))) ∧
  runTimer (apple2 w1) = None ∧ runAnimationFrame (apple2 w1) = Some 2%Z ∧
  sources w1 = 1 ∧
  tick_of (AnimationFrame 2 Examples.next_obs) w1 =
    Some (0, Examples.next_obs) ∧
  List.filter is_cpu_step (log_of (AnimationFrame 2 Examples.next_obs) w1) =
    [StepCycles (Z.min ((1032 - 1016) * 1023) (1023 * 30))] ∧
  sources (exec (react Examples.stopping_tick) Examples.timer_running) = 0.
Proof.
  cbn zeta. split_and!; try reflexivity.
  - apply reachable_react, reachable_boot.
  - split_and!; reflexivity.
Qed.

Lemma scheduled_sources w :
  scheduled w →
  (idle w ∧ sources w = 0) ∨
  (sources w = 1 ∧
   (runTimer (apple2 w) ≠ None ∧ runAnimationFrame (apple2 w) = None ∨
    runTimer (apple2 w) = None ∧ runAnimationFrame (apple2 w) ≠ None)).
Proof.
  intros (_ & _ & _ & [Hi | [Hf | Hv]]); unfold sources.
  - left. split; [done|]. destruct Hi as (_ & _ & -> & ->). done.
  - right. destruct Hf as (_ & -> & -> & id & cid & _ & _ & -> & ->).
    rewrite map_size_singleton. split; [done|]. by right.
  - right. destruct Hv as (_ & -> & -> & id & cid & _ & _ & -> & ->).
    rewrite map_size_singleton. split; [done|]. by left.
Qed.





End RunStop.

(** ** The ProDOS loader *)

Section ProDOSLoader.
Import Formats.
Context `{FormatUtils}.

Lemma array_set_end {A} (hole v : A) (ary : list A) :
  JS.array_set hole (length ary) v ary = ary ++ [v].
Proof. induction ary as [|e ary IH]; cbn; [done|by rewrite IH]. Qed.

Lemma slice_logical_sector raw t s :
  JS.slice ((16 * t + s) * 256) ((16 * t + s) * 256 + 256) raw =
  logical_sector raw t s.
Proof.
  unfold JS.slice, logical_sector. f_equal. lia.
Qed.

Lemma logical_sector_length raw t s :
  length raw = 35 * 16 * 256 → t < 35 → s < 16 →
  length (logical_sector raw t s) = 256.
Proof.
  intros Hraw Ht Hs. unfold logical_sector.
  rewrite length_take, length_drop. lia.
Qed.

Lemma read_sector_raw o raw t p :
  rawData o = Some raw → p < length PO →
  read_sector o t p = Some (Some (logical_sector raw t (PO_at p))).
Proof.
  intros Hraw Hp. unfold read_sector, PO_at. rewrite Hraw.
  destruct (lookup_lt_is_Some_2 _ _ Hp) as [s ->]; cbn -[Nat.mul Nat.add].
  by rewrite slice_logical_sector.
Qed.

Lemma nibblize_sectors o t sector ps acc :
  (∀ p, p ∈ ps → read_sector o t p = Some (sector p)) →
  foldl (λ acc physical_sector,
           track ← acc;
           sector ← read_sector o t physical_sector;
           Some (track ++ explodeSector16 (volume o) t physical_sector sector))
        (Some acc) ps =
  Some (acc ++ concat ((λ p, explodeSector16 (volume o) t p (sector p)) <$> ps)).
Proof.
  revert acc. induction ps as [|p ps IH]; intros acc Hps; cbn.
  - by rewrite app_nil_r.
  - rewrite (Hps p) by set_solver. cbn.
    rewrite IH by (intros q Hq; apply Hps; set_solver).
    by rewrite <- app_assoc.
Qed.

Lemma nibblize_track_raw o raw t :
  rawData o = Some raw → length PO = 16 →
  nibblize_track o t =
  Some (concat ((λ p, explodeSector16 (volume o) t p
                        (Some (logical_sector raw t (PO_at p))))
                <$> seq 0 16)).
Proof.
  intros Hraw HPO. unfold nibblize_track.
  rewrite (nibblize_sectors o t
             (λ p, Some (logical_sector raw t (PO_at p)))); [done|].
  intros p Hp. apply read_sector_raw; [done|].
  apply elem_of_seq in Hp. lia.
Qed.

Lemma collect_tracks o track n start acc :
  length acc = start →
  (∀ t, nibblize_track o t = Some (track t)) →
  foldl (λ acc physical_track,
           tracks ← acc;
           track ← nibblize_track o physical_track;
           Some (JS.array_set [] physical_track (bytify track) tracks))
        (Some acc) (seq start n) =
  Some (acc ++ ((λ t, bytify (track t)) <$> seq start n)).
Proof.
  intros Hlen Htrack. revert start acc Hlen.
  induction n as [|n IH]; intros start acc Hlen; cbn -[nibblize_track].
  - by rewrite app_nil_r.
  - rewrite Htrack; cbn -[nibblize_track]. rewrite <- Hlen, array_set_end.
    rewrite IH by (rewrite length_app; cbn; lia).
    rewrite <- app_assoc. cbn. by rewrite Hlen.
Qed.

(** The disk the loader makes of raw data, whatever the imported
    functions are. *)
Lemma ProDOS_raw o raw :
  rawData o = Some raw → length PO = 16 →
  ProDOS o =
  Some {| format := "nib"; disk_name := name o;
          disk_volume := JS.or_default (volume o) 254;
          tracks :=
            (λ t, bytify
                    (concat ((λ p, explodeSector16 (volume o) t p
                                     (Some (logical_sector raw t (PO_at p))))
                             <$> seq 0 16)))
            <$> seq 0 35;
          disk_readOnly := JS.or_false (readOnly o);
          trackMap := None; rawTracks := None |}.
Proof.
  intros Hraw HPO. unfold ProDOS.
  rewrite (collect_tracks o
             (λ t, concat ((λ p, explodeSector16 (volume o) t p
                                   (Some (logical_sector raw t (PO_at p))))
                           <$> seq 0 16))); [done..|].
  intros t. by apply nibblize_track_raw.
Qed.

(** C6: of a ProDOS-ordered image of 35 x 16 x 256 bytes the loader
    makes 35 tracks; track [t] is, for the physical sectors 0..15 in
    order, [explodeSector16] of the 256 bytes of the raw data at offset
    [(16 t + PO[p]) * 256], concatenated. *)
Theorem ProDOS_tracks (o : Options) (raw : list Z) :
  rawData o = Some raw →
  length raw = 35 * 16 * 256 →
  length PO = 16 → Forall (λ s, s < 16) PO →
  (∀ track, Forall is_byte track → bytify track = track) →
  (∀ v t p d, Forall is_byte (explodeSector16 v t p d)) →
  ∃ disk, ProDOS o = Some disk ∧
    length (tracks disk) = 35 ∧
    ∀ t, t < 35 →
      tracks disk !! t =
        Some (concat ((λ p, explodeSector16 (volume o) t p
                              (Some (take 256
                                       (drop ((16 * t + PO_at p) * 256) raw))))
                      <$> seq 0 16)) ∧
      ∀ p, p < 16 →
        PO !! p = Some (PO_at p) ∧
        length (take 256 (drop ((16 * t + PO_at p) * 256) raw)) = 256.
Proof.
  intros Hraw Hlen HPO Hrange Hbytify Hbytes.
  rewrite (ProDOS_raw o raw Hraw HPO). eexists; split; [done|]. cbn [tracks].
  split; [by rewrite length_fmap, length_seq|].
  intros t Ht. split.
  - rewrite list_lookup_fmap, lookup_seq_lt by done.
    change (0 + t) with t. cbn [fmap option_fmap option_map].
    unfold logical_sector. rewrite Hbytify; [done|].
    apply Forall_concat, Forall_fmap, Forall_forall. intros p _. apply Hbytes.
  - intros p Hp. unfold PO_at.
    destruct (lookup_lt_is_Some_2 PO p) as [s Hs]; [lia|].
    rewrite Hs; cbn. split; [done|].
    apply (logical_sector_length raw t s); [done..|].
    by apply (Forall_lookup_1 _ _ _ _ Hrange Hs).
Qed.

End ProDOSLoader.

Section ProDOSVolume.
Import Formats.

Lemma to_uint8_bytes track : Forall Formats.is_byte track → DiskExamples.to_uint8 track = track.
Proof.
  induction 1 as [|v track Hv _ IH]; [done|].
  unfold DiskExamples.to_uint8 in *; cbn. rewrite IH. f_equal.
  apply Z.mod_small. exact Hv.
Qed.

Lemma address_field_bytes v t p d : Forall Formats.is_byte (DiskExamples.address_field v t p d).
Proof.
  unfold DiskExamples.address_field, Formats.is_byte.
  repeat (apply Forall_cons; split; [try lia; apply Z.mod_pos_bound; lia|]).
  apply Forall_nil. done.
Qed.

Lemma ProDOS_tracks_witness :
  rawData DiskExamples.blank = Some DiskExamples.blank_image ∧
  length DiskExamples.blank_image = 35 * 16 * 256 ∧
  ∃ disk, @ProDOS DiskExamples.probe DiskExamples.blank = Some disk ∧
    length (tracks disk) = 35 ∧
    ∀ t, t < 35 →
      tracks disk !! t =
        Some (concat ((λ p, DiskExamples.address_field None t p
                              (Some (take 256
                                       (drop ((16 * t + @PO_at DiskExamples.probe p) * 256)
                                          DiskExamples.blank_image))))
                      <$> seq 0 16)) ∧
      ∀ p, p < 16 →
        DiskExamples.PO_table !! p = Some (@PO_at DiskExamples.probe p) ∧
        length (take 256 (drop ((16 * t + @PO_at DiskExamples.probe p) * 256)
                            DiskExamples.blank_image)) = 256.
Proof.
  split; [reflexivity|]. split; [apply length_replicate|].
  apply (@ProDOS_tracks DiskExamples.probe DiskExamples.blank
           DiskExamples.blank_image).
  - reflexivity.
  - apply length_replicate.
  - reflexivity.
  - unfold PO; cbn. unfold DiskExamples.PO_table.
    repeat (apply Forall_cons; split; [lia|]). apply Forall_nil. done.
  - exact to_uint8_bytes.
  - exact address_field_bytes.
Defined.

(** C7 fails on the code: loading the blank image without a volume
    number gives a disk whose [volume] is 254, while every sector was
    nibblized with the volume [undefined]; the address fields carry
    volume 0 where the caller's 254 would show as 254. *)
Lemma ProDOS_default_volume_not_passed :
  volume DiskExamples.blank = None ∧
  ∃ disk, @ProDOS DiskExamples.probe DiskExamples.blank = Some disk ∧
    disk_volume disk = 254%Z ∧
    tracks disk =
      (λ t, DiskExamples.to_uint8
              (concat ((λ p, DiskExamples.address_field None t p
                               (Some (logical_sector DiskExamples.blank_image t
                                        (@PO_at DiskExamples.probe p))))
                       <$> seq 0 16)))
      <$> seq 0 35 ∧
    tracks disk ≠
      (λ t, DiskExamples.to_uint8
              (concat ((λ p, DiskExamples.address_field (Some 254%Z) t p
                               (Some (logical_sector DiskExamples.blank_image t
                                        (@PO_at DiskExamples.probe p))))
                       <$> seq 0 16)))
      <$> seq 0 35 ∧
    (tracks disk !! 0) ≫= (.!! 3) = Some 0%Z.
Proof.
  split; [reflexivity|].
  rewrite (@ProDOS_raw DiskExamples.probe DiskExamples.blank
             DiskExamples.blank_image) by reflexivity.
  eexists; split; [reflexivity|]. cbn [tracks disk_volume].
  split_and!.
  - reflexivity.
  - reflexivity.
  - intros Heq. apply (f_equal (λ l, (l !! 0) ≫= (.!! 3))) in Heq.
    discriminate Heq.
  - reflexivity.
Qed.

End ProDOSVolume.

(** ** Routing a disk image to a card *)

Section Routing.
Import UI.
Context `{Page}.

Lemma large_threshold bytes :
  (threshold <=? Z.of_nat (length bytes))%Z = bool_decide (large bytes).
Proof.
  unfold large, threshold.
  destruct (Z.leb_spec (800 * 1024) (Z.of_nat (length bytes)));
    [by rewrite bool_decide_eq_true_2 | rewrite bool_decide_eq_false_2; [done|lia]].
Qed.

(** C8, amended: a local load, and an HTTP load whose file name
    [decodeURIComponent] accepts, hands the bytes to exactly one card or to
    none: to [SmartPort.setBinary] when they are at least 800 x 1024,
    otherwise to [DiskII.setBinary] when the extension is a disk format,
    otherwise to none.  An HTTP load whose file name does not decode
    reaches no card. *)
Theorem disk_routing (drive : DriveNumber) :
  (∀ file_name hash result,
     card_calls (doLoadLocalDisk drive file_name hash result) =
     if bool_decide (large result) then
       [SmartPortSetBinary drive (name_of file_name) (ext_of file_name) result]
     else if bool_decide (ext_of file_name ∈ DISK_FORMATS) then
       [DiskIISetBinary drive (name_of file_name) (ext_of file_name) result]
     else []) ∧
  (∀ url chunks,
     card_calls (doLoadHTTP drive url chunks) =
     match decodeURIComponent (name_of (file_of url)) with
     | inr _ => []
     | inl name =>
         if bool_decide (large (concat chunks)) then
           [SmartPortSetBinary drive name (ext_of (file_of url))
              (concat chunks)]
         else if bool_decide (ext_of (file_of url) ∈ DISK_FORMATS) then
           [DiskIISetBinary drive name (ext_of (file_of url)) (concat chunks)]
         else []
     end).
Proof.
  split.
  - intros file_name hash result.
    unfold doLoadLocalDisk, ext_of, name_of, includes.
    destruct (pop (split "." file_name)) as [last parts]; cbn [fst snd].
    rewrite large_threshold. unfold card_calls; cbn.
    destruct (bool_decide (large result)); cbn.
    + destruct (smartPort_setBinary _ _ _ _); reflexivity.
    + destruct (bool_decide (toLowerCase last ∈ DISK_FORMATS)); cbn;
        [|reflexivity].
      destruct (disk2_setBinary _ _ _ _); reflexivity.
  - intros url chunks.
    unfold doLoadHTTP, ext_of, name_of, file_of, includes.
    destruct (pop (split "/" url)) as [file rest]; cbn [fst snd].
    destruct (pop (split "." file)) as [last parts]; cbn [fst snd].
    destruct (decodeURIComponent (join "." parts)) as [name|msg];
      [|reflexivity].
    rewrite large_threshold. unfold card_calls; cbn.
    destruct (bool_decide (large (concat chunks))); cbn.
    + destruct (smartPort_setBinary _ _ _ _); reflexivity.
    + destruct (bool_decide (toLowerCase last ∈ DISK_FORMATS)); cbn;
        [|reflexivity].
      destruct (disk2_setBinary _ _ _ _); reflexivity.
Qed.

End Routing.

Section RoutingExample.
Import UI.

(** C8, as stated, fails: a hard-disk image of 800 x 1024 bytes fetched
    from a URL whose file name is not a well-formed URI component reaches
    neither card; the load ends with the [URIError]'s alert. *)
Lemma undecodable_name_reaches_no_card :
  large (concat PageExamples.hard_disk) ∧
  @decodeURIComponent PageExamples.page
    (name_of (file_of PageExamples.bad_url)) = inr "URI malformed" ∧
  @doLoadHTTP PageExamples.page Drive1 PageExamples.bad_url
    PageExamples.hard_disk =
    [LoadingStart; LoadingStop; OpenAlert "URI malformed"] ∧
  card_calls
    (@doLoadHTTP PageExamples.page Drive1 PageExamples.bad_url
       PageExamples.hard_disk) = [].
Proof.
  split_and!; try reflexivity.
  unfold large, PageExamples.hard_disk.
  rewrite concat_cons, concat_nil, app_nil_r, length_replicate. lia.
Qed.

Lemma disk_routing_witness :
  @decodeURIComponent PageExamples.page
    (name_of (file_of PageExamples.url)) = inl "ProDOS_2_4" ∧
  @card_calls
    (@doLoadHTTP PageExamples.page Drive2 PageExamples.url PageExamples.chunks)
  = [DiskIISetBinary Drive2 "ProDOS_2_4" "po" [1; 2; 3; 4; 5; 6]%Z].
Proof.
  split; [reflexivity|].
  rewrite (proj2 (@disk_routing PageExamples.page Drive2)
             PageExamples.url PageExamples.chunks).
  reflexivity.
Defined.

End RoutingExample.

(** * Further properties *)

(** ** The debug trace *)

Section TraceBuffer.
Import Apple2.

Lemma push_trace_spec line a :
  MAX_TRACE (push_trace line a) = MAX_TRACE a ∧
  TRACE (push_trace line a) = TRACE a ∧
  trace (push_trace line a) `suffix_of` trace a ++ [line] ∧
  (Z.of_nat (length (trace (push_trace line a))) ≤
   Z.max (Z.of_nat (length (trace a))) (MAX_TRACE a))%Z.
Proof.
  unfold push_trace. destruct a as [pa de trc mt tr rt rf cp i mm rm ms st]; cbn.
  split; [done|]. split; [done|].
  destruct (Z.gtb_spec (Z.of_nat (length (tr ++ [line]))) mt) as [Hgt|Hle].
  - split.
    + destruct (tr ++ [line]) as [|x l]; [done|]. cbn. by apply suffix_cons_r.
    + rewrite length_app in Hgt. cbn in Hgt.
      assert (length (tail (tr ++ [line])) = length tr) as ->; [|lia].
      destruct tr; cbn; [done|]. rewrite length_app. cbn. lia.
  - split; [done|]. lia.
Qed.

Lemma foldl_push_trace_spec lines a :
  trace (foldl (λ a line, push_trace line a) a lines)
    `suffix_of` trace a ++ lines ∧
  (Z.of_nat (length (trace (foldl (λ a line, push_trace line a) a lines))) ≤
   Z.max (Z.of_nat (length (trace a))) (MAX_TRACE a))%Z.
Proof.
  revert a. induction lines as [|l lines IH]; intros a; cbn.
  - rewrite app_nil_r. split; [done|lia].
  - destruct (push_trace_spec l a) as (Hm & _ & Hs & Hl).
    destruct (IH (push_trace l a)) as [Hs' Hl']. rewrite Hm in Hl'. split.
    + etrans; [exact Hs'|].
      replace (trace a ++ l :: lines) with ((trace a ++ [l]) ++ lines)
        by (by rewrite <- app_assoc).
      by apply suffix_app.
    + lia.
Qed.

(** X1: a tick in debug mode without [TRACE] leaves in [trace] a suffix of
    the old trace followed by the lines of this tick, no longer than the
    longer of the old trace and [MAX_TRACE]; any other tick leaves [trace]
    as it was. *)
Theorem debug_trace_bounded (cid : nat) (obs : Obs) (w : World) :
  let a := apple2 w in
  let a' := apple2 (exec (runFn cid obs) w) in
  MAX_TRACE a' = MAX_TRACE a ∧
  if DEBUG a && negb (TRACE a) then
    trace a' `suffix_of` trace a ++ debug_lines obs ∧
    (Z.of_nat (length (trace a')) ≤
     Z.max (Z.of_nat (length (trace a))) (MAX_TRACE a))%Z
  else trace a' = trace a.
Proof.
  cbn zeta. unfold exec. rewrite runFn_run. cbn [snd].
  destruct (rescheduled_frame cid (hooked (hook obs) (ticked cid obs w)))
    as (Hm1 & _).
  destruct (hooked_frame (hook obs) (ticked cid obs w)) as (Hm2 & _).
  rewrite Hm2 in Hm1.
  destruct (machine_fields _ _ Hm1) as (_ & _ & _ & -> & -> & _).
  unfold ticked; cbn [apple2].
  assert (∀ a1, trace (counted obs a1) = trace a1 ∧
                MAX_TRACE (counted obs a1) = MAX_TRACE a1) as Hco.
  { intros a1. unfold counted. by destruct (consulted_blit _ _). }
  destruct (Hco (stepped obs (apple2 w))) as [-> ->].
  unfold stepped, traced.
  destruct (apple2 w) as [pa de trc mt tr rt rf cp i mm rm ms st]; cbn.
  destruct de, trc; cbn; try done.
  set (a1 := set_hardware _ _).
  destruct (foldl_push_trace_spec (debug_lines obs) a1) as [Hs Hl].
  destruct (foldl_push_trace (debug_lines obs) a1) as [tr' Heq].
  rewrite Heq in *. done.
Qed.

End TraceBuffer.

(** ** Ticks in sequence *)

Section TickSequence.
Import Apple2.

(** The calls of a tick outside debug mode. *)
Lemma tick_log_plain w e cid obs last :
  DEBUG (apple2 w) = false →
  tick_of e w = Some (cid, obs) → closures w !! cid = Some last →
  let kHz := Apple2IO.getKHz (io (apple2 w)) in
  log_of e w =
  StepCycles (Z.min ((now obs - last) * kHz) (kHz * interval)) ::
  (if bool_decide (is_Some (mmu (apple2 w))) then [ResetVB] else []) ++
  (if Apple2IO.annunciator 0 (hw_io (after_step obs))
   then if multiScreen (apple2 w) then [VmBlit; IoBlit] else [IoBlit]
   else [VmBlit]) ++
  [IoTick; Tick].
Proof.
  intros Hd Ht Hlast. cbn zeta.
  rewrite (tick_log _ _ _ _ Ht), Hlast; cbn.
  unfold tick_calls, cpu_calls, blit_calls, stepped.
  rewrite Hd, budget_min.
  destruct (apple2 w) as [pa de trc mt tr rt rf cp i [m|] rm ms st],
    obs as [nw [hc hi hm hr] ls vb ib hk]; cbn.
  all: destruct (Apple2IO.annunciator 0 hi), ms; reflexivity.
Qed.

(** The first call of a tick outside debug mode. *)
Lemma tick_steps w e cid obs last :
  DEBUG (apple2 w) = false →
  tick_of e w = Some (cid, obs) → closures w !! cid = Some last →
  let kHz := Apple2IO.getKHz (io (apple2 w)) in
  List.filter is_cpu_step (log_of e w) =
  [StepCycles (Z.min ((now obs - last) * kHz) (kHz * interval))].
Proof.
  intros Hd Ht Hlast. cbn zeta.
  rewrite (tick_log_plain _ _ _ _ _ Hd Ht Hlast); cbn.
  repeat (match goal with
          | |- context [if ?b then _ else _] => destruct b
          end; cbn); reflexivity.
Qed.

(** X2: in a reachable emulator a tick makes these calls, in this order:
    [cpu.stepCycles] with the capped budget, [mmu.resetVB] on a IIe, the
    blits, [io.tick] and the [tick] hook; nothing but a tick makes any
    call to the CPU, the video, the I/O or the hook. *)
Theorem tick_call_order (w : World) (e : Event) :
  reachable w →
  match tick_of e w with
  | Some (cid, obs) =>
      ∃ last, closures w !! cid = Some last ∧
        let kHz := Apple2IO.getKHz (io (apple2 w)) in
        log_of e w =
        StepCycles (Z.min ((now obs - last) * kHz) (kHz * interval)) ::
        (if bool_decide (is_Some (mmu (apple2 w))) then [ResetVB] else []) ++
        (if Apple2IO.annunciator 0 (hw_io (after_step obs))
         then if multiScreen (apple2 w) then [VmBlit; IoBlit] else [IoBlit]
         else [VmBlit]) ++
        [IoTick; Tick]
  | None => log_of e w = []
  end.
Proof.
  intros Hw. pose proof (reachable_wired w Hw) as (_ & Hd & _ & _ & _ & _ & Hc).
  destruct (tick_of e w) as [[cid obs]|] eqn:Ht.
  - pose proof (Hc _ (tick_pending _ _ _ _ Ht)) as Hcid.
    destruct (lookup_lt_is_Some_2 _ _ Hcid) as [last Hlast].
    exists last. split; [done|].
    exact (tick_log_plain w e cid obs last Hd Ht Hlast).
  - unfold log_of. destruct (other_stats e w Ht) as [_ ->].
    by rewrite drop_all.
Qed.

Lemma tick_call_order_witness :
  reachable Examples.iie_running ∧
  ∃ last, closures Examples.iie_running !! 0 = Some last ∧
    log_of Examples.frame Examples.iie_running =
    [StepCycles (Z.min ((1016 - last) * 1023) (1023 * interval));
     ResetVB; VmBlit; IoTick; Tick].
Proof.
  assert (reachable Examples.iie_running) as Hw
    by apply reachable_react, reachable_boot.
  split; [exact Hw|].
  exact (tick_call_order Examples.iie_running Examples.frame Hw).
Defined.

(** The clock setting a tick leaves. *)
Lemma tick_io e w cid obs :
  wired w → tick_of e w = Some (cid, obs) →
  io (apple2 (exec (react e) w)) = hw_io (after_step obs).
Proof.
  intros (_ & Hd & _) Ht.
  destruct (tick_frame _ _ _ _ Ht) as (Hm & _ & _).
  destruct (machine_fields _ _ Hm) as (_ & _ & _ & _ & _ & _ & -> & _).
  unfold counted, stepped. rewrite Hd.
  destruct (consulted_blit _ _), (apple2 w); done.
Qed.

(** After a tick whose hook does not restart the emulator, the schedule
    holds the closure that ticked and no other; it holds it unless the
    hook has stopped an emulator that is on the interval timer. *)
Lemma tick_next w e cid obs :
  scheduled w → tick_of e w = Some (cid, obs) →
  calm_hook (hook obs) = true →
  (∀ c, pending (exec (react e) w) c → c = cid) ∧
  (existsb is_hook_stop (hook obs) = false ∨
   Host.raf_available (host w) = true →
   sources (exec (react e) w) = 1).
Proof.
  intros Hs Ht Hcalm. rewrite (tick_calm _ _ _ _ Hs Ht Hcalm). cbn zeta.
  destruct (tick_closure w e cid obs Hs Ht)
    as [Hcid [(id & -> & Hf & Hfr)|(id & -> & Hv & Hiv)]].
  - (* an animation frame *)
    set (m := ticked cid obs (with_host (Host.take_frame id (host w)) w)).
    destruct Hs as (Hp & Hd & Hl & _).
    destruct Hf as (Hraf & Hrt & Hiv & _).
    destruct (counted_stepped obs (apple2 w)) as (Ep & Ed & Et & Er & _).
    assert (paused (apple2 m) = false ∧ DEBUG (apple2 m) = false ∧
            (0 ≤ Host.last_handle (host m))%Z ∧
            Host.raf_available (host m) = true ∧
            runTimer (apple2 m) = None ∧ Host.intervals (host m) = ∅ ∧
            Host.frame_requests (host m) = ∅ ∧
            cid < length (closures m))
      as (Hp1 & Hd1 & Hl1 & Hraf1 & Ht1 & Hiv1 & Hfr1 & Hc1).
    { unfold m, ticked; cbn [apple2 host closures with_host].
      rewrite Ep, Ed, Et, length_insert. split_and!; try done.
      cbn. rewrite Hfr. apply delete_singleton_eq. }
    assert (∀ X, scheduled (rescheduled cid X) ∧ on_frames (rescheduled cid X) ∧
                 Host.frame_requests (host (rescheduled cid X)) =
                   {[(Host.last_handle (host X) + 1)%Z := cid]} →
                 (∀ c, pending (rescheduled cid X) c → c = cid) ∧
                 sources (rescheduled cid X) = 1) as Hgo.
    { intros X (_ & (_ & _ & HivX & _) & HfrX). split.
      - intros c [id' [Hreq|Hreq]].
        + rewrite HfrX in Hreq. by apply lookup_singleton_Some in Hreq as [_ <-].
        + by rewrite HivX, lookup_empty in Hreq.
      - unfold sources. by rewrite HfrX, HivX, map_size_singleton. }
    destruct (existsb is_hook_stop (hook obs)).
    + destruct (stop_frame m) as (Hm & _ & Hcl & Hraf2 & Hlh & Hfr2 & Hiv2).
      destruct (machine_fields _ _ Hm) as (Hp2 & Hd2 & _).
      destruct (Hgo (exec stop m)) as [H1 H2]; [|done].
      apply rescheduled_frames; try congruence.
      * unfold exec. rewrite stop_run. done.
      * rewrite Hiv1 in Hiv2. by apply subseteq_empty.
      * rewrite Hfr1 in Hfr2. by apply subseteq_empty.
    + destruct (Hgo m) as [H1 H2]; [|done]. by apply rescheduled_frames.
  - (* the interval *)
    pose proof Hv as (Hraf & _ & Hfr & _).
    assert (∀ c, pending (ticked cid obs w) c → c = cid) as Hpend.
    { intros c [id' [Hreq|Hreq]]; cbn in Hreq.
      - by rewrite Hfr, lookup_empty in Hreq.
      - rewrite Hiv in Hreq. by apply lookup_singleton_Some in Hreq as [_ <-]. }
    destruct (existsb is_hook_stop (hook obs)).
    + rewrite rescheduled_timer.
      * split; [|intros [?|?]; congruence].
        destruct (stop_frame (ticked cid obs w))
          as (_ & _ & _ & _ & _ & Hfr2 & Hiv2).
        intros c [id' [Hreq|Hreq]]; apply Hpend; exists id'; [left|right];
          by eapply lookup_weaken.
      * destruct (stop_frame (ticked cid obs w)) as (_ & _ & _ & -> & _). done.
    + rewrite rescheduled_timer by done. split; [done|]. intros _.
      unfold sources; cbn. by rewrite Hfr, Hiv, map_size_singleton.
Qed.

(** X3: the tick that follows a tick is given the time since [last] of
    its callback; for the callback that has just ticked that is the time
    of that tick, not of any earlier one, so its budget is
    [min((now2 - now1) * kHz, kHz * interval)].  In an emulator whose hooks
    have not restarted it there is no other callback: that is every next
    tick. *)
Theorem next_tick_counts_from_last (w : World) (e1 e2 : Event)
    (cid1 cid2 : nat) (obs1 obs2 : Obs) :
  reachable w →
  tick_of e1 w = Some (cid1, obs1) →
  tick_of e2 (exec (react e1) w) = Some (cid2, obs2) →
  let kHz := Apple2IO.getKHz (hw_io (after_step obs1)) in
  ∃ last,
    closures (exec (react e1) w) !! cid2 = Some last ∧
    List.filter is_cpu_step (log_of e2 (exec (react e1) w)) =
      [StepCycles (Z.min ((now obs2 - last) * kHz) (kHz * interval))] ∧
    (cid2 = cid1 ∨ steady w ∧ calm e1 = true → last = now obs1).
Proof.
  intros Hw Ht1 Ht2. cbn zeta.
  pose proof (reachable_wired w Hw) as Hwired.
  pose proof (reachable_wired _ (reachable_react w e1 Hw))
    as (_ & Hd & _ & _ & _ & _ & Hc).
  pose proof (Hc _ (tick_pending _ _ _ _ Ht2)) as Hcid.
  destruct (lookup_lt_is_Some_2 _ _ Hcid) as [last Hlast].
  exists last. split; [done|]. split.
  - rewrite (tick_steps _ _ _ _ _ Hd Ht2 Hlast).
    by rewrite (tick_io _ _ _ _ Hwired Ht1).
  - intros Hsame.
    assert (cid2 = cid1) as ->.
    { destruct Hsame as [|[Hst Hcalm]]; [done|].
      assert (calm_hook (hook obs1) = true) as Hcalm1.
      { destruct e1; try discriminate; cbn in Ht1;
          destruct (_ !! _); try discriminate; by injection Ht1 as _ <-. }
      destruct (tick_next w e1 cid1 obs1 (steady_scheduled w Hst) Ht1 Hcalm1)
        as [Hone _].
      apply Hone. by eapply tick_pending. }
    pose proof (tick_sets_last _ _ _ _ Hwired Ht1). congruence.
Qed.

Lemma next_tick_counts_from_last_witness :
  reachable Examples.iie_running ∧
  tick_of Examples.frame Examples.iie_running = Some (0, Examples.frame_obs) ∧
  tick_of MoreExamples.late_frame
    (exec (react Examples.frame) Examples.iie_running) =
    Some (0, MoreExamples.late_obs) ∧
  List.filter is_cpu_step
    (log_of MoreExamples.late_frame
       (exec (react Examples.frame) Examples.iie_running)) =
  [StepCycles (Z.min ((5000 - 1016) * 1023) (1023 * interval))].
Proof.
  assert (reachable Examples.iie_running) as Hw
    by apply reachable_react, reachable_boot.
  split; [exact Hw|]. split; [reflexivity|]. split; [reflexivity|].
  destruct (next_tick_counts_from_last Examples.iie_running Examples.frame
              MoreExamples.late_frame 0 0 Examples.frame_obs
              MoreExamples.late_obs Hw eq_refl eq_refl)
    as (last & _ & Hlog & Hlast).
  rewrite (Hlast (or_introl eq_refl)) in Hlog. exact Hlog.
Defined.

(** What [run()] makes of a stopped emulator. *)
Lemma run_idle date_now w :
  idle w →
  closures (exec (run date_now) w) = closures w ++ [date_now] ∧
  io (apple2 (exec (run date_now) w)) = io (apple2 w) ∧
  stats (apple2 (exec (run date_now) w)) = stats (apple2 w) ∧
  calls (exec (run date_now) w) = calls w ∧
  ∀ e cid obs,
    tick_of e (exec (run date_now) w) = Some (cid, obs) →
    cid = length (closures w).
Proof.
  intros (Ht & Hr & Hfr & Hiv). unfold exec. rewrite run_run. cbn.
  unfold running. rewrite Ht, Hr; cbn.
  destruct (Host.raf_available (host w)); cbn.
  - split_and!; try done.
    intros [| | |id2 o2|id2 o2|] cid2 obs2; cbn; try discriminate.
    + rewrite Hfr.
      destruct (decide (id2 = (Host.last_handle (host w) + 1)%Z)) as [->|Hne].
      * rewrite lookup_insert_eq. cbn. congruence.
      * rewrite lookup_insert_ne, lookup_empty by done. discriminate.
    + rewrite Hiv, lookup_empty. discriminate.
  - split_and!; try done.
    intros [| | |id2 o2|id2 o2|] cid2 obs2; cbn; try discriminate.
    + rewrite Hfr, lookup_empty. discriminate.
    + rewrite Hiv.
      destruct (decide (id2 = (Host.last_handle (host w) + 1)%Z)) as [->|Hne].
      * rewrite lookup_insert_eq. cbn. congruence.
      * rewrite lookup_insert_ne, lookup_empty by done. discriminate.
Qed.

(** X4: [run()] on a stopped emulator (a new one, or one after [stop()])
    makes no call and leaves the counters; a tick after it is given the
    time since [last] of its callback; for the callback that this [run()]
    has made that is the time of this [run()], so the time spent stopped
    is not caught up.  When nothing was scheduled before (as in every
    emulator whose hooks have not restarted it) there is no other
    callback. *)
Theorem first_tick_counts_from_run (w : World) (date_now : Z) :
  reachable w →
  runTimer (apple2 w) = None → runAnimationFrame (apple2 w) = None →
  let w1 := exec (react (Run date_now)) w in
  let kHz := Apple2IO.getKHz (io (apple2 w)) in
  stats (apple2 w1) = stats (apple2 w) ∧ calls w1 = calls w ∧
  ∀ e cid obs,
    tick_of e w1 = Some (cid, obs) →
    ∃ last,
      closures w1 !! cid = Some last ∧
      List.filter is_cpu_step (log_of e w1) =
        [StepCycles (Z.min ((now obs - last) * kHz) (kHz * interval))] ∧
      (cid = length (closures w) ∨ sources w = 0 ∨ steady w →
       last = date_now).
Proof.
  intros Hw Ht Hr. cbn zeta.
  change (exec (react (Run date_now)) w) with (exec (run date_now) w).
  destruct (run_frame date_now w) as (Hm & Hca & _).
  destruct (machine_fields _ _ Hm)
    as (_ & _ & _ & _ & _ & _ & Hio & _ & _ & _ & Hst).
  split; [done|]. split; [done|].
  intros e cid obs Hte.
  pose proof (reachable_wired _ (reachable_react w (Run date_now) Hw))
    as (_ & Hd & _ & _ & _ & _ & Hc).
  change (exec (react (Run date_now)) w) with (exec (run date_now) w) in Hd, Hc.
  pose proof (Hc _ (tick_pending _ _ _ _ Hte)) as Hcid.
  destruct (lookup_lt_is_Some_2 _ _ Hcid) as [last Hlast].
  exists last. split; [done|]. split.
  - rewrite (tick_steps _ _ _ _ _ Hd Hte Hlast). by rewrite Hio.
  - intros Hnew.
    assert (closures (exec (run date_now) w) = closures w ++ [date_now])
      as Hcl.
    { unfold exec. rewrite run_run. cbn. unfold running. rewrite Ht, Hr. cbn.
      by destruct (Host.raf_available (host w)). }
    assert (cid = length (closures w)) as ->.
    { destruct Hnew as [|Hnone]; [done|].
      assert (idle w) as Hi.
      { destruct Hnone as [Hz|Hsteady].
        - unfold sources in Hz. split_and!; try done;
            apply map_size_empty_inv; lia.
        - destruct (scheduled_sources w (steady_scheduled w Hsteady))
            as [[Hi _] | [_ [[Hn _] | [_ Hn]]]]; done. }
      destruct (run_idle date_now w Hi) as (_ & _ & _ & _ & Hone).
      by eapply Hone. }
    rewrite Hcl, list_lookup_middle in Hlast by done. congruence.
Qed.

Lemma first_tick_counts_from_run_witness :
  reachable MoreExamples.paused_iie ∧
  runTimer (apple2 MoreExamples.paused_iie) = None ∧
  runAnimationFrame (apple2 MoreExamples.paused_iie) = None ∧
  let w1 := exec (react (Run 90000)) MoreExamples.paused_iie in
  tick_of MoreExamples.resumed_frame w1 = Some (1, MoreExamples.resumed_obs) ∧
  List.filter is_cpu_step (log_of MoreExamples.resumed_frame w1) =
  [StepCycles (Z.min ((90016 - 90000) * 1023) (1023 * interval))].
Proof.
  assert (reachable MoreExamples.paused_iie) as Hw
    by (do 2 apply reachable_react; apply reachable_boot).
  split; [exact Hw|]. split; [reflexivity|]. split; [reflexivity|].
  split; [reflexivity|].
  destruct (proj2 (proj2 (first_tick_counts_from_run MoreExamples.paused_iie
                            90000 Hw eq_refl eq_refl))
              MoreExamples.resumed_frame 1 MoreExamples.resumed_obs eq_refl)
    as (last & _ & Hlog & Hlast).
  rewrite (Hlast (or_introl eq_refl)) in Hlog. exact Hlog.
Defined.

(** X5: in an emulator whose hooks have not restarted it, the handle of
    a running emulator names a callback that is scheduled; and when a
    scheduled callback has run, with a hook that calls neither [run()] nor
    [stop()], the emulator is running still, with one callback scheduled:
    ticks go on until [stop()]. *)
Theorem running_stays_running (w : World) :
  steady w →
  (running (apple2 w) = true →
   ∀ obs, ∃ id cid,
     runAnimationFrame (apple2 w) = Some id ∧
     tick_of (AnimationFrame id obs) w = Some (cid, obs) ∨
     runTimer (apple2 w) = Some id ∧
     tick_of (IntervalElapsed id obs) w = Some (cid, obs)) ∧
  (∀ e, is_tick e w = true → quiet e = true →
     running (apple2 (exec (react e) w)) = true ∧
     sources (exec (react e) w) = 1).
Proof.
  intros Hst. pose proof (steady_scheduled w Hst) as Hs. split.
  - intros Hrun obs.
    pose proof Hs as (_ & _ & _ & [Hi | [Hf | Hv]]).
    + destruct Hi as (Ht & Hr & _). unfold running in Hrun.
      rewrite Ht, Hr in Hrun. discriminate.
    + destruct Hf as (_ & _ & _ & id & cid & _ & _ & Hr & Hfr).
      exists id, cid. left. split; [done|]. cbn.
      by rewrite Hfr, lookup_singleton_eq.
    + destruct Hv as (_ & _ & _ & id & cid & _ & _ & Ht & Hiv).
      exists id, cid. right. split; [done|]. cbn.
      by rewrite Hiv, lookup_singleton_eq.
  - intros e He Hq. unfold is_tick in He.
    apply bool_decide_eq_true_1 in He as [[cid obs] Ht].
    assert (hook obs = []) as Hnil.
    { unfold quiet in Hq. destruct e; try discriminate; cbn in Ht, Hq;
        destruct (_ !! _); try discriminate; injection Ht as _ <-;
        by destruct (hook _). }
    assert (calm_hook (hook obs) = true) as Hcalm by (by rewrite Hnil).
    destruct (tick_next w e cid obs Hs Ht Hcalm) as (_ & Hone).
    rewrite Hnil in Hone. specialize (Hone (or_introl eq_refl)).
    split; [|done].
    pose proof (scheduled_tick e w cid obs Hs Ht Hcalm) as Hs'.
    apply busy_running; [done|].
    intros (_ & _ & Hfr & Hiv). unfold sources in Hone.
    rewrite Hfr, Hiv in Hone. done.
Qed.

Lemma running_stays_running_witness :
  steady Examples.iie_running ∧
  running (apple2 Examples.iie_running) = true ∧
  is_tick Examples.frame Examples.iie_running = true ∧
  quiet Examples.frame = true ∧
  running (apple2 (exec (react Examples.frame) Examples.iie_running)) = true ∧
  sources (exec (react Examples.frame) Examples.iie_running) = 1.
Proof.
  assert (steady Examples.iie_running) as Hst
    by (apply steady_react; [apply steady_boot | reflexivity]).
  split; [exact Hst|]. split; [reflexivity|]. split; [reflexivity|].
  split; [reflexivity|].
  apply (proj2 (running_stays_running Examples.iie_running Hst));
    reflexivity.
Defined.

(** X18: [stop()] between ticks, on an emulator whose hooks have not
    restarted it, leaves [runTimer] and [runAnimationFrame] null and
    nothing scheduled; whatever happens next, short of [run()], no tick
    runs (no call is made to the CPU, the video or the hook, the counters
    stand); on a stopped emulator [stop()] changes nothing. *)
Theorem stop_cancels_ticks (w : World) :
  steady w →
  let w' := exec (react Stop) w in
  runTimer (apple2 w') = None ∧ runAnimationFrame (apple2 w') = None ∧
  Host.frame_requests (host w') = ∅ ∧ Host.intervals (host w') = ∅ ∧
  (∀ es, Forall (λ e, is_run e = false) es →
     calls (react_all es w') = calls w' ∧
     stats (apple2 (react_all es w')) = stats (apple2 w') ∧
     sources (react_all es w') = 0 ∧
     ∀ e, is_tick e (react_all es w') = false) ∧
  (runTimer (apple2 w) = None → runAnimationFrame (apple2 w) = None →
   w' = w).
Proof.
  intros Hw. cbn zeta.
  pose proof (stop_idle w (steady_scheduled w Hw)) as Hi.
  change (exec (react Stop) w) with (exec stop w).
  destruct Hi as (Ht & Hr & Hfr & Hiv).
  split_and!; try done.
  - intros es Hes.
    destruct (idle_react_all es (exec stop w)) as (Hi' & Hc & Hs);
      [done..|].
    split_and!; try done.
    + destruct Hi' as (_ & _ & Hfr' & Hiv'). unfold sources.
      rewrite Hfr', Hiv'. done.
    + intros e. unfold is_tick. rewrite (idle_no_tick e _ Hi').
      apply bool_decide_eq_false_2. intros [? [=]].
  - intros Ht0 Hr0. unfold exec. rewrite stop_run.
    destruct w as [a h c k]; cbn in *. rewrite Ht0, Hr0; cbn.
    destruct a; cbn in *; subst; reflexivity.
Qed.

Lemma stop_cancels_ticks_witness :
  steady Examples.iie_running ∧
  sources Examples.iie_running = 1 ∧
  let w' := exec (react Stop) Examples.iie_running in
  runTimer (apple2 w') = None ∧ runAnimationFrame (apple2 w') = None ∧
  Host.frame_requests (host w') = ∅ ∧ Host.intervals (host w') = ∅ ∧
  (∀ es, Forall (λ e, is_run e = false) es →
     calls (react_all es w') = calls w' ∧
     stats (apple2 (react_all es w')) = stats (apple2 w') ∧
     sources (react_all es w') = 0 ∧
     ∀ e, is_tick e (react_all es w') = false) ∧
  (runTimer (apple2 Examples.iie_running) = None →
   runAnimationFrame (apple2 Examples.iie_running) = None →
   w' = Examples.iie_running).
Proof.
  assert (steady Examples.iie_running) as Hst
    by (apply steady_react; [apply steady_boot | reflexivity]).
  split; [exact Hst|]. split; [reflexivity|].
  exact (stop_cancels_ticks Examples.iie_running Hst).
Defined.

End TickSequence.

(** ** The ProDOS loader on other inputs *)

Section ProDOSEdges.
Import Formats.
Context `{FormatUtils}.

Lemma read_sector_rawData o raw t p :
  rawData o = Some raw →
  read_sector o t p =
  Some (Some match PO !! p with
             | Some s => take 256 (drop ((16 * t + s) * 256) raw)
             | None => []
             end).
Proof.
  intros Hraw. unfold read_sector. rewrite Hraw.
  destruct (PO !! p) as [s|]; [|done].
  cbn -[Nat.mul Nat.add]. by rewrite slice_logical_sector.
Qed.

Lemma nibblize_None o t ps :
  foldl (λ acc physical_sector,
           track ← acc;
           sector ← read_sector o t physical_sector;
           Some (track ++ explodeSector16 (volume o) t physical_sector sector))
        None ps = None.
Proof. induction ps; done. Qed.

Lemma collect_None o ts :
  foldl (λ acc physical_track,
           tracks ← acc;
           track ← nibblize_track o physical_track;
           Some (JS.array_set [] physical_track (bytify track) tracks))
        None ts = None.
Proof. induction ts; done. Qed.

Lemma nibblize_track_throws o t :
  read_sector o t 0 = None → nibblize_track o t = None.
Proof.
  intros Hr. unfold nibblize_track.
  change (seq 0 16) with (0 :: seq 1 15). cbn [foldl].
  rewrite Hr. cbn. first [done | apply nibblize_None].
Qed.

Lemma collect_tracks_upto o track n start acc :
  length acc = start →
  (∀ t, start ≤ t < start + n → nibblize_track o t = Some (track t)) →
  foldl (λ acc physical_track,
           tracks ← acc;
           track ← nibblize_track o physical_track;
           Some (JS.array_set [] physical_track (bytify track) tracks))
        (Some acc) (seq start n) =
  Some (acc ++ ((λ t, bytify (track t)) <$> seq start n)).
Proof.
  revert start acc.
  induction n as [|n IH]; intros start acc <- Htrack; cbn -[nibblize_track].
  - by rewrite app_nil_r.
  - rewrite Htrack by lia; cbn -[nibblize_track].
    rewrite array_set_end.
    rewrite (IH (S (length acc))).
    + by rewrite <- app_assoc.
    + rewrite length_app; cbn; lia.
    + intros t Ht. apply Htrack. lia.
Qed.

Lemma collect_throws o acc t n :
  nibblize_track o t = None →
  foldl (λ acc physical_track,
           tracks ← acc;
           track ← nibblize_track o physical_track;
           Some (JS.array_set [] physical_track (bytify track) tracks))
        (Some acc) (seq t (S n)) = None.
Proof.
  intros Hn. cbn [seq foldl]. rewrite Hn. cbn [mbind option_bind].
  apply collect_None.
Qed.

(** The track the loader makes of sectors that can all be read. *)
Lemma nibblize_track_of o t sector :
  (∀ p, p < 16 → read_sector o t p = Some (sector p)) →
  nibblize_track o t =
  Some (concat ((λ p, explodeSector16 (volume o) t p (sector p)) <$> seq 0 16)).
Proof.
  intros Hread. unfold nibblize_track.
  rewrite (nibblize_sectors o t sector); [done|].
  intros p Hp. apply Hread. apply elem_of_seq in Hp. lia.
Qed.

(** X6: the loader does not look at the length of [rawData]: it makes a
    disk of 35 tracks of any buffer, and a sector that reaches past the
    end of the buffer is handed to the nibblizer cut short (empty when it
    starts past the end). *)
Theorem ProDOS_any_length (o : Options) (raw : list Z) :
  rawData o = Some raw →
  (∃ disk, ProDOS o = Some disk ∧ length (tracks disk) = 35) ∧
  ∀ t p s, PO !! p = Some s →
    ∃ sector, read_sector o t p = Some (Some sector) ∧
      sector = take 256 (drop ((16 * t + s) * 256) raw) ∧
      length sector = 256 `min` (length raw - (16 * t + s) * 256).
Proof.
  intros Hraw. split.
  - unfold ProDOS.
    rewrite (collect_tracks o
               (λ t, concat ((λ p, explodeSector16 (volume o) t p
                                     (Some match PO !! p with
                                           | Some s =>
                                               take 256
                                                 (drop ((16 * t + s) * 256) raw)
                                           | None => []
                                           end))
                             <$> seq 0 16))); [|done|].
    + eexists. split; [done|]. cbn [tracks app].
      by rewrite length_fmap, length_seq.
    + intros t. apply nibblize_track_of. intros p _.
      by apply read_sector_rawData.
  - intros t p s Hs. eexists. split; [|split; [done|]].
    + rewrite (read_sector_rawData o raw t p Hraw), Hs. done.
    + by rewrite length_take, length_drop.
Qed.

(** X7: without [rawData] the loader throws (a [TypeError], at
    [data[physical_track][prodos_sector]]) and returns no disk when [data]
    is missing or has fewer than 35 tracks; reading a sector that is
    missing from a track that is there is no error of the loader:
    [undefined] is what it hands to [explodeSector16]. *)
Theorem ProDOS_short_data_throws (o : Options) :
  rawData o = None →
  (data o = None ∨ (∃ d, data o = Some d ∧ length d < 35) →
   ProDOS o = None) ∧
  (∀ d t track p s,
     data o = Some d → d !! t = Some track →
     PO !! p = Some s → track !! s = None →
     read_sector o t p = Some None).
Proof.
  intros Hraw. split.
  - intros [Hdata|(d & Hdata & Hshort)]; unfold ProDOS.
    + rewrite (collect_throws o [] 0 34); [done|].
      apply nibblize_track_throws.
      unfold read_sector. by rewrite Hraw, Hdata.
    + replace 35 with (length d + (35 - length d)) by lia.
      rewrite seq_app, foldl_app.
      rewrite (collect_tracks_upto o
                 (λ t, concat ((λ p, explodeSector16 (volume o) t p
                                       (s ← PO !! p; (d !! t) ≫= (.!! s)))
                               <$> seq 0 16))); [|done|].
      * destruct (35 - length d) as [|k] eqn:Hk; [lia|].
        rewrite collect_throws; [done|]. apply nibblize_track_throws.
        unfold read_sector. rewrite Hraw, Hdata. cbn.
        by rewrite (lookup_ge_None_2 d (length d)).
      * intros t Ht. apply nibblize_track_of. intros p _.
        unfold read_sector. rewrite Hraw, Hdata. cbn.
        destruct (lookup_lt_is_Some_2 d t) as [track ->]; [lia|]. done.
  - intros d t track p s Hdata Htrack Hs Hmiss.
    unfold read_sector. rewrite Hraw, Hdata. cbn.
    rewrite Htrack. cbn. rewrite Hs. cbn. by rewrite Hmiss.
Qed.

End ProDOSEdges.

Section ProDOSEdgeExamples.
Import Formats.

Lemma ProDOS_any_length_witness :
  rawData MoreDiskExamples.short = Some [1; 2; 3]%Z ∧
  (∃ disk, @ProDOS DiskExamples.probe MoreDiskExamples.short = Some disk ∧
           length (tracks disk) = 35) ∧
  ∃ sector,
    @read_sector DiskExamples.probe MoreDiskExamples.short 0 0 =
      Some (Some sector) ∧
    sector = [1; 2; 3]%Z ∧ length sector = 3.
Proof.
  split; [reflexivity|].
  destruct (@ProDOS_any_length DiskExamples.probe MoreDiskExamples.short
              [1; 2; 3]%Z eq_refl) as [Hdisk Hsec].
  split; [exact Hdisk|].
  exact (Hsec 0 0 0 eq_refl).
Defined.

Lemma ProDOS_short_data_throws_witness :
  rawData MoreDiskExamples.one_track = None ∧
  @ProDOS DiskExamples.probe MoreDiskExamples.one_track = None ∧
  @read_sector DiskExamples.probe MoreDiskExamples.one_track 0 1 = Some None.
Proof.
  split; [reflexivity|].
  destruct (@ProDOS_short_data_throws DiskExamples.probe
              MoreDiskExamples.one_track eq_refl) as [Hthrow Hread].
  split.
  - apply Hthrow. right. eexists. split; [reflexivity|]. cbn. lia.
  - exact (Hread _ 0 _ 1 8 eq_refl eq_refl eq_refl eq_refl).
Defined.

End ProDOSEdgeExamples.

Section ProDOSSectors.
Import Formats.
Context `{FormatUtils}.

(** X8: the same image given as [data] (the sectors as nested arrays)
    instead of [rawData] (the bytes) makes the same disk. *)
Theorem ProDOS_data_agrees (o_raw o_data : Options) (raw : list Z)
    (d : list (list (list Z))) :
  rawData o_raw = Some raw →
  rawData o_data = None → data o_data = Some d →
  name o_data = name o_raw → volume o_data = volume o_raw →
  readOnly o_data = readOnly o_raw →
  length PO = 16 → Forall (λ s, s < 16) PO →
  (∀ t s, t < 35 → s < 16 →
     (d !! t) ≫= (.!! s) = Some (take 256 (drop ((16 * t + s) * 256) raw))) →
  ProDOS o_data = ProDOS o_raw.
Proof.
  intros Hraw Hnone Hdata Hname Hvol Hro HPO Hrange Hd.
  rewrite (ProDOS_raw o_raw raw Hraw HPO). unfold ProDOS.
  rewrite (collect_tracks_upto o_data
             (λ t, concat ((λ p, explodeSector16 (volume o_raw) t p
                                   (Some (logical_sector raw t (PO_at p))))
                           <$> seq 0 16))); [|done|].
  - cbn [mbind option_bind app]. by rewrite Hname, Hvol, Hro.
  - intros t Ht. rewrite <- Hvol.
    apply (nibblize_track_of o_data t
             (λ p, Some (logical_sector raw t (PO_at p)))).
    intros p Hp. unfold read_sector, PO_at. rewrite Hnone, Hdata.
    destruct (lookup_lt_is_Some_2 PO p) as [s Hs]; [lia|].
    pose proof (Forall_lookup_1 _ _ _ _ Hrange Hs) as Hlt.
    specialize (Hd t s ltac:(lia) Hlt).
    rewrite Hs. cbn [mbind option_bind default from_option] in *.
    destruct (d !! t) as [track|]; [|done].
    cbn [mbind option_bind] in *. by rewrite Hd.
Qed.

(** X9: a volume number the caller supplies is the one every sector is
    nibblized with; the disk records the same number unless it is 0,
    which the disk records as 254. *)
Theorem ProDOS_volume_supplied (o : Options) (raw : list Z) (v : Z) :
  rawData o = Some raw → volume o = Some v → length PO = 16 →
  ∃ disk, ProDOS o = Some disk ∧
    (disk_volume disk = v ↔ v ≠ 0%Z) ∧
    (v = 0%Z → disk_volume disk = 254%Z) ∧
    tracks disk =
      (λ t, bytify
              (concat ((λ p, explodeSector16 (Some v) t p
                               (Some (take 256
                                        (drop ((16 * t + PO_at p) * 256) raw))))
                       <$> seq 0 16)))
      <$> seq 0 35.
Proof.
  intros Hraw Hvol HPO. rewrite (ProDOS_raw o raw Hraw HPO).
  eexists. split; [done|]. cbn [disk_volume tracks]. rewrite Hvol.
  unfold JS.or_default.
  destruct (Z.eqb_spec v 0) as [->|Hne]; split_and!; try done.
Qed.

Lemma PO_at_seq : PO_at <$> seq 0 (length PO) = PO.
Proof.
  apply list_eq. intros i. rewrite list_lookup_fmap.
  destruct (decide (i < length PO)) as [Hlt|Hge].
  - rewrite lookup_seq_lt by done. cbn. unfold PO_at.
    by destruct (lookup_lt_is_Some_2 PO i Hlt) as [s ->].
  - rewrite lookup_seq_ge by lia. cbn. symmetry. apply lookup_ge_None_2. lia.
Qed.

Lemma concat_chunks (k n : nat) (l : list Z) :
  concat ((λ i, take k (drop (i * k) l)) <$> seq 0 n) = take (n * k) l.
Proof.
  induction n as [|n IH]; [done|].
  rewrite seq_S, fmap_app, concat_app, IH. cbn.
  rewrite app_nil_r, take_take_drop. f_equal. lia.
Qed.

(** X10: when [PO] is a permutation of 0..15, the sectors read for a
    track are the 16 logical sectors of that track, each once; and the
    logical sectors of the 35 tracks are the whole image: every byte of a
    35 x 16 x 256 image is nibblized exactly once. *)
Theorem ProDOS_reads_every_sector (o : Options) (raw : list Z) (t : nat) :
  rawData o = Some raw → length raw = 35 * 16 * 256 → PO ≡ₚ seq 0 16 →
  (∃ sectors,
     Forall2 (λ p sector, read_sector o t p = Some (Some sector))
       (seq 0 16) sectors ∧
     sectors ≡ₚ (λ s, take 256 (drop ((16 * t + s) * 256) raw)) <$> seq 0 16) ∧
  concat ((λ t, concat ((λ s, take 256 (drop ((16 * t + s) * 256) raw))
                        <$> seq 0 16))
          <$> seq 0 35) = raw.
Proof.
  intros Hraw Hlen Hperm.
  assert (length PO = 16) as HPO
    by (by rewrite (Permutation_length Hperm), length_seq).
  split.
  - exists ((λ p, logical_sector raw t (PO_at p)) <$> seq 0 16). split.
    + apply Forall2_fmap_r, Forall_Forall2_diag, Forall_forall.
      intros p Hp. apply read_sector_raw; [done|].
      apply elem_of_seq in Hp. lia.
    + assert (PO_at <$> seq 0 16 = PO) as Hpo
        by (rewrite <- HPO; apply PO_at_seq).
      change ((λ p, logical_sector raw t (PO_at p)) <$> seq 0 16)
        with ((logical_sector raw t ∘ PO_at) <$> seq 0 16).
      rewrite list_fmap_compose, Hpo, Hperm. done.
  - erewrite (list_fmap_ext _ (λ t, take (16 * 256) (drop (t * (16 * 256)) raw))).
    + rewrite concat_chunks. apply take_ge. lia.
    + intros i t' _.
      rewrite <- (concat_chunks 256 16 (drop (t' * (16 * 256)) raw)).
      f_equal. apply list_fmap_ext. intros j s _.
      rewrite drop_drop. do 2 f_equal. lia.
Qed.

End ProDOSSectors.

Section ProDOSSectorExamples.
Import Formats.

Lemma ProDOS_data_agrees_witness :
  @ProDOS DiskExamples.probe MoreDiskExamples.blank_sectors =
  @ProDOS DiskExamples.probe DiskExamples.blank.
Proof.
  apply (@ProDOS_data_agrees DiskExamples.probe DiskExamples.blank
           MoreDiskExamples.blank_sectors DiskExamples.blank_image
           (replicate 35 (replicate 16 (replicate 256 0%Z)))
           eq_refl eq_refl eq_refl eq_refl eq_refl eq_refl eq_refl).
  - unfold PO; cbn. unfold DiskExamples.PO_table.
    repeat (apply Forall_cons; split; [lia|]). apply Forall_nil. done.
  - intros t s Ht Hs.
    rewrite (lookup_replicate_2 _ _ t) by done. cbn [mbind option_bind].
    rewrite (lookup_replicate_2 _ _ s) by done.
    unfold DiskExamples.blank_image.
    rewrite drop_replicate, take_replicate. do 2 f_equal. lia.
Defined.

Lemma ProDOS_volume_supplied_witness :
  ∃ disk, @ProDOS DiskExamples.probe MoreDiskExamples.short = Some disk ∧
    (disk_volume disk = 254%Z ↔ 254%Z ≠ 0%Z) ∧
    (254%Z = 0%Z → disk_volume disk = 254%Z) ∧
    tracks disk =
      (λ t, DiskExamples.to_uint8
              (concat ((λ p, DiskExamples.address_field (Some 254%Z) t p
                               (Some (take 256
                                        (drop ((16 * t + @PO_at DiskExamples.probe p)
                                               * 256) [1; 2; 3]%Z))))
                       <$> seq 0 16)))
      <$> seq 0 35.
Proof.
  exact (@ProDOS_volume_supplied DiskExamples.probe MoreDiskExamples.short
           [1; 2; 3]%Z 254 eq_refl eq_refl eq_refl).
Defined.

Lemma ProDOS_reads_every_sector_witness :
  (∃ sectors,
     Forall2 (λ p sector,
                @read_sector DiskExamples.probe DiskExamples.blank 3 p =
                Some (Some sector))
       (seq 0 16) sectors ∧
     sectors ≡ₚ (λ s, take 256 (drop ((16 * 3 + s) * 256)
                                   DiskExamples.blank_image)) <$> seq 0 16) ∧
  concat ((λ t, concat ((λ s, take 256 (drop ((16 * t + s) * 256)
                                          DiskExamples.blank_image))
                        <$> seq 0 16))
          <$> seq 0 35) = DiskExamples.blank_image.
Proof.
  apply (@ProDOS_reads_every_sector DiskExamples.probe DiskExamples.blank
           DiskExamples.blank_image 3).
  - reflexivity.
  - apply length_replicate.
  - unfold PO; cbn. unfold DiskExamples.PO_table.
    apply (bool_decide_unpack _). vm_compute. exact I.
Defined.

End ProDOSSectorExamples.

(** ** Binary files *)

Section BinaryLoads.
Import UI.

Lemma shr_8 x : (0 ≤ x < 2 ^ 31)%Z → JS.shr x 8 = (x / 256)%Z.
Proof.
  intros Hx. unfold JS.shr, JS.to_int32.
  rewrite Z.mod_small by lia.
  change (Z.land 8 31) with 8%Z. rewrite Z.shiftr_div_pow2 by lia.
  f_equal. lia.
Qed.

Lemma band_255 x : (0 ≤ x < 2 ^ 31)%Z → JS.band x 0xff = (x `mod` 256)%Z.
Proof.
  intros Hx. unfold JS.band, JS.to_int32.
  rewrite !Z.mod_small by lia.
  replace (x + 2 ^ 31 - 2 ^ 31)%Z with x by lia.
  change (255 + 2 ^ 31 - 2 ^ 31)%Z with (Z.ones 8).
  by rewrite Z.land_ones by lia.
Qed.

Lemma write_next_all result address writes :
  (0 ≤ address)%Z → (address + Z.of_nat (length result) ≤ 2 ^ 31)%Z →
  foldl write_next (address, writes) result =
  ((address + Z.of_nat (length result))%Z,
   writes ++ imap (λ i byte, CpuWrite ((address + Z.of_nat i) / 256)
                               ((address + Z.of_nat i) `mod` 256) byte)
               result).
Proof.
  revert address writes.
  induction result as [|b result IH]; intros address writes H0 Hmax; cbn.
  - rewrite app_nil_r. f_equal. lia.
  - cbn [length] in Hmax. rewrite IH by lia.
    rewrite shr_8, band_255 by lia. f_equal; [lia|].
    rewrite <- app_assoc. cbn. rewrite Z.add_0_r. do 2 f_equal.
    apply imap_ext. intros i byte _. cbn. do 2 f_equal; lia.
Qed.

(** X11: [doLoadBinary] writes byte [i] of the file to page
    [(address + i) / 256], offset [(address + i) mod 256], in order and
    without wrapping at 64K (pages above 255 are passed on to the CPU as
    they come); then, with [runOnLoad], it resets the CPU and sets the PC
    to the start address. *)
Theorem doLoadBinary_linear (result : list Z) (address : Z)
    (runOnLoad : option bool) :
  (0 ≤ address)%Z → (address + Z.of_nat (length result) ≤ 2 ^ 31)%Z →
  doLoadBinary result address runOnLoad =
  [PageEffect LoadingStart] ++
  imap (λ i byte, CpuWrite ((address + Z.of_nat i) / 256)
                    ((address + Z.of_nat i) `mod` 256) byte) result ++
  (if JS.or_false runOnLoad then [CpuReset; CpuSetPC address] else []) ++
  [PageEffect LoadingStop].
Proof.
  intros H0 Hmax. unfold doLoadBinary.
  by rewrite (write_next_all result address [] H0 Hmax).
Qed.

Lemma doLoadBinary_linear_witness :
  doLoadBinary [0xA9; 0x00; 0x60]%Z 0xFFFF (Some true) =
  [PageEffect LoadingStart; CpuWrite 255 255 0xA9; CpuWrite 256 0 0x00;
   CpuWrite 256 1 0x60; CpuReset; CpuSetPC 0xFFFF; PageEffect LoadingStop].
Proof.
  rewrite (doLoadBinary_linear [0xA9; 0x00; 0x60]%Z 0xFFFF (Some true));
    [reflexivity | lia | cbn; lia].
Defined.

Lemma write_next_no_card result acc :
  card_actions (foldl write_next acc result).2 = card_actions acc.2.
Proof.
  revert acc. induction result as [|b result IH]; intros [a ws]; [done|].
  cbn [foldl]. rewrite IH. cbn. unfold card_actions.
  rewrite List.filter_app. cbn. by rewrite app_nil_r.
Qed.

Lemma doLoadBinary_no_card result address runOnLoad :
  card_actions (doLoadBinary result address runOnLoad) = [].
Proof.
  unfold doLoadBinary.
  change (card_actions ([PageEffect LoadingStart] ++ ?l))
    with (card_actions l).
  unfold card_actions at 1. rewrite List.filter_app.
  fold (card_actions (foldl write_next (address, []) result).2).
  rewrite write_next_no_card. cbn. by destruct (JS.or_false runOnLoad).
Qed.

End BinaryLoads.

(** ** Local files *)

Section LocalFiles.
Import UI.
Context `{Page} `{Imports}.

(** X12: a local file reaches a card exactly when its extension is a disk
    format, and then one card: SmartPort when it has 800 x 1024 bytes or
    more, Disk II otherwise.  A file of any other extension reaches none,
    whatever its size. *)
Theorem doLoadLocal_cards (drive : DriveNumber) (file_name hash : string)
    (result : list Z) (options : LoadOptions) :
  card_actions (doLoadLocal drive file_name hash result options) =
  if bool_decide (ext_of file_name ∈ DISK_FORMATS) then
    if bool_decide (large result) then
      [PageEffect (SmartPortSetBinary drive (name_of file_name)
                     (ext_of file_name) result)]
    else
      [PageEffect (DiskIISetBinary drive (name_of file_name)
                     (ext_of file_name) result)]
  else [].
Proof.
  unfold doLoadLocal, ext_of, name_of, pop; cbn [fst snd].
  unfold includes at 1.
  destruct (bool_decide (toLowerCase (List.last (split "." file_name) "")
                         ∈ DISK_FORMATS)) eqn:Hdisk.
  - unfold doLoadLocalDisk, pop, includes. rewrite Hdisk, large_threshold.
    destruct (bool_decide (large result)); cbn.
    + destruct (smartPort_setBinary _ _ _ _); reflexivity.
    + destruct (disk2_setBinary _ _ _ _); reflexivity.
  - destruct (includes TAPE_TYPES _); [done|].
    destruct (_ || _ || _); [|done].
    apply doLoadBinary_no_card.
Qed.

End LocalFiles.

(** ** The CiderPress suffix *)

Section CiderPress.
Import UI.

Lemma substring_length n m s :
  n + m ≤ String.length s → String.length (String.substring n m s) = m.
Proof.
  revert n m. induction s as [|c s IH]; intros n m Hlen; cbn in *.
  - assert (n = 0 ∧ m = 0) as [-> ->] by lia. done.
  - destruct n as [|n]; [destruct m as [|m]; [done|]|]; cbn.
    + f_equal. apply (IH 0 m). lia.
    + apply IH. lia.
Qed.

Lemma hex_value_range c : is_hex c = true → (0 ≤ hex_value c < 16)%Z.
Proof.
  unfold is_hex, hex_value.
  destruct (N.leb_spec 48 (N_of_ascii c)), (N.leb_spec (N_of_ascii c) 57),
    (N.leb_spec 65 (N_of_ascii c)), (N.leb_spec (N_of_ascii c) 70),
    (N.leb_spec 97 (N_of_ascii c)), (N.leb_spec (N_of_ascii c) 102);
    cbn; try discriminate; intros _;
    repeat match goal with
           | |- context [(?a <=? ?b)%Z] => destruct (Z.leb_spec a b)
           end; lia.
Qed.

(** What a match of the suffix gives. *)
Lemma ciderpress_groups file_name ty aux :
  ciderpress file_name = Some (ty, aux) →
  ∃ c1 c2 c3 c4 c5 c6,
    String.substring (String.length file_name - 7) 7 file_name =
      String "#" (String c1 (String c2 (String c3 (String c4
        (String c5 (String c6 EmptyString)))))) ∧
    ty = String c1 (String c2 EmptyString) ∧
    aux = String c3 (String c4 (String c5 (String c6 EmptyString))) ∧
    is_hex c3 = true ∧ is_hex c4 = true ∧ is_hex c5 = true ∧
    is_hex c6 = true.
Proof.
  unfold ciderpress.
  destruct (String.length file_name <? 7) eqn:Hlen; [discriminate|].
  apply Nat.ltb_ge in Hlen.
  pose proof (substring_length (String.length file_name - 7) 7 file_name
                ltac:(lia)) as Hsub.
  destruct (String.substring _ 7 file_name) as [|c0 digits]; [discriminate|].
  destruct digits as [|c1 [|c2 [|c3 [|c4 [|c5 [|c6 [|c7 rest]]]]]]];
    try discriminate.
  destruct (Ascii.eqb_spec c0 "#") as [->|Hne].
  - cbn. destruct (is_hex c1), (is_hex c2), (is_hex c3) eqn:H3,
      (is_hex c4) eqn:H4, (is_hex c5) eqn:H5, (is_hex c6) eqn:H6;
      cbn; try discriminate.
    intros [= <- <-]. by exists c1, c2, c3, c4, c5, c6.
  - intros Hm. exfalso.
    destruct c0 as [[] [] [] [] [] [] [] []]; try discriminate Hm.
    by apply Hne.
Qed.

End CiderPress.

Section BinaryAddress.
Import UI.
Context `{Page} `{Imports}.

(** X13: a local file that is neither a disk nor a tape, loaded without
    an address of the caller's, either is refused as of unknown type or is
    loaded as a binary at an address below 64K: the four hex digits that
    end a CiderPress suffix, and 0x2000 without such a suffix. *)
Theorem doLoadLocal_binary_address (drive : DriveNumber)
    (file_name hash : string) (result : list Z) (options : LoadOptions) :
  ext_of file_name ∉ DISK_FORMATS → ext_of file_name ∉ TAPE_TYPES →
  address options = None →
  doLoadLocal drive file_name hash result options =
    [PageEffect (OpenAlert ("Unknown file type: " +:+ ext_of file_name))] ∨
  ∃ start, (0 ≤ start < 65536)%Z ∧
    doLoadLocal drive file_name hash result options =
      doLoadBinary result start (runOnLoad options) ∧
    match ciderpress file_name with
    | Some (_, aux) => start = parseInt16 aux
    | None => start = 0x2000%Z
    end.
Proof.
  intros Hdisk Htape Haddr.
  unfold doLoadLocal, ext_of, pop in *; cbn [fst snd] in *.
  assert (includes DISK_FORMATS
            (toLowerCase (List.last (split "." file_name) "")) = false)
    as -> by (unfold includes; by apply bool_decide_eq_false_2).
  assert (includes TAPE_TYPES
            (toLowerCase (List.last (split "." file_name) "")) = false)
    as -> by (unfold includes; by apply bool_decide_eq_false_2).
  rewrite Haddr. cbn [JS.truthy default from_option].
  destruct (_ || _ || _); [right|by left].
  destruct (ciderpress file_name) as [[ty aux]|] eqn:Hc.
  - destruct (ciderpress_groups _ _ _ Hc)
      as (c1 & c2 & c3 & c4 & c5 & c6 & _ & _ & -> & H3 & H4 & H5 & H6).
    cbn [fmap option_fmap option_map snd JS.truthy_string].
    rewrite bool_decide_eq_false_2 by done. cbn [negb default from_option].
    eexists. split; [|split; reflexivity].
    unfold parseInt16; cbn.
    pose proof (hex_value_range _ H3). pose proof (hex_value_range _ H4).
    pose proof (hex_value_range _ H5). pose proof (hex_value_range _ H6).
    lia.
  - cbn. exists 0x2000%Z. split; [lia|done].
Qed.

End BinaryAddress.

Section BinaryAddressExample.
Import UI.

Lemma doLoadLocal_binary_address_witness :
  (@ext_of PageExamples.page "LODERUNNER#06C0fe" ∉
     (@DISK_FORMATS PageExamples.page)) ∧
  @doLoadLocal PageExamples.page LoadExamples.imports Drive1
    "LODERUNNER#06C0fe" "" [1; 2]%Z
    {| address := None; runOnLoad := None |} =
  doLoadBinary [1; 2]%Z 0xC0FE None.
Proof.
  assert (@ext_of PageExamples.page "LODERUNNER#06C0fe" ∉
            (@DISK_FORMATS PageExamples.page)) as Hd
    by (apply (bool_decide_unpack _); vm_compute; exact I).
  split; [exact Hd|].
  destruct (@doLoadLocal_binary_address PageExamples.page LoadExamples.imports
              Drive1 "LODERUNNER#06C0fe" "" [1; 2]%Z
              {| address := None; runOnLoad := None |} Hd)
    as [Halert | (start & _ & Heq & Hstart)].
  - apply (bool_decide_unpack _). vm_compute. exact I.
  - reflexivity.
  - discriminate Halert.
  - vm_compute in Hstart. subst start. exact Heq.
Defined.

End BinaryAddressExample.

(** ** The URL fragment *)

Section Fragment.
Import UI.

Lemma split_cons sep s : ∃ first others, split sep s = first :: others.
Proof.
  destruct s as [|c s]; cbn [split]; [by eexists _, _|].
  destruct (Ascii.eqb c sep); [by eexists _, _|].
  destruct (split sep s); by eexists _, _.
Qed.

Lemma split_free sep s : Forall (λ part, occurs sep part = false) (split sep s).
Proof.
  induction s as [|c s IH]; cbn [split].
  - by repeat constructor.
  - destruct (Ascii.eqb c sep) eqn:Hc; [by constructor|].
    destruct (split sep s) as [|first others].
    + repeat constructor. cbn [occurs]. by rewrite Hc.
    + inversion_clear IH as [|? ? Hf Ho]. constructor; [|done].
      cbn [occurs]. by rewrite Hc.
Qed.

Lemma split_append sep first rest :
  occurs sep first = false →
  split sep (first +:+ String sep rest) = first :: split sep rest.
Proof.
  induction first as [|c first IH].
  - intros _. change (split sep (String sep rest) = "" :: split sep rest).
    cbn [split]. by rewrite Ascii.eqb_refl.
  - intros Hocc. cbn [occurs] in Hocc.
    apply orb_false_iff in Hocc as [Hc Hocc].
    change (split sep (String c (first +:+ String sep rest)) =
            String c first :: split sep rest).
    cbn [split]. rewrite Hc, IH by done. done.
Qed.

Lemma split_single sep s : occurs sep s = false → split sep s = [s].
Proof.
  induction s as [|c s IH]; [done|].
  intros Hocc. cbn [occurs] in Hocc.
  apply orb_false_iff in Hocc as [Hc Hocc].
  cbn [split]. by rewrite Hc, IH.
Qed.

(** Parsing what [join] made of parts that are free of the separator
    gives the parts back. *)
Lemma split_join sep part parts :
  Forall (λ part, occurs sep part = false) (part :: parts) →
  split sep (join (String sep EmptyString) (part :: parts)) = part :: parts.
Proof.
  revert part. induction parts as [|next parts IH]; intros part Hfree.
  - inversion_clear Hfree. by apply split_single.
  - inversion_clear Hfree as [|? ? Hp Hrest].
    change (join (String sep "") (part :: next :: parts))
      with (part +:+ String sep (join (String sep "") (next :: parts))).
    rewrite split_append by done. by rewrite IH.
Qed.

Lemma array_set_lookup {A} (hole v : A) i ary :
  JS.array_set hole i v ary !! i = Some v.
Proof.
  revert ary. induction i as [|i IH]; intros [|e ary]; cbn; try done;
    apply IH.
Qed.

Lemma array_set_lookup_ne {A} (hole v : A) i j ary :
  i ≠ j → j < length ary →
  JS.array_set hole i v ary !! j = ary !! j.
Proof.
  revert j ary. induction i as [|i IH]; intros [|j] [|e ary] Hne Hlt;
    cbn in *; try done; try lia.
  apply IH; lia.
Qed.

Lemma array_set_free sep i ary :
  Forall (λ part, occurs sep part = false) ary →
  Forall (λ part, occurs sep part = false)
    (JS.array_set EmptyString i EmptyString ary).
Proof.
  revert ary. induction i as [|i IH]; intros [|e ary] Hfree; cbn.
  - by repeat constructor.
  - inversion_clear Hfree. by constructor.
  - constructor; [done|]. apply IH. constructor.
  - inversion_clear Hfree. constructor; [done|]. by apply IH.
Qed.

Lemma array_set_cons {A} (hole v : A) i ary :
  ∃ first others, JS.array_set hole i v ary = first :: others.
Proof. destruct i, ary; cbn; by eexists _, _. Qed.

End Fragment.

Section FragmentOfLoad.
Import UI.
Context `{Page}.

(** X14: a local disk load rewrites the URL fragment so that, split at
    [|] again, the entry of the drive being loaded is empty and every
    other entry is what it was. *)
Theorem doLoadLocalDisk_fragment (drive : DriveNumber)
    (file_name hash : string) (result : list Z) :
  ∃ fragment,
    doLoadLocalDisk drive file_name hash result !! 1 = Some (SetHash fragment) ∧
    split "|" fragment =
      JS.array_set EmptyString (entry_of drive) EmptyString (split "|" hash) ∧
    split "|" fragment !! entry_of drive = Some EmptyString ∧
    ∀ j, j ≠ entry_of drive → j < length (split "|" hash) →
         split "|" fragment !! j = split "|" hash !! j.
Proof.
  unfold doLoadLocalDisk, entry_of.
  destruct (pop (split "." file_name)) as [last parts].
  eexists. split; [reflexivity|].
  set (files := JS.array_set "" (Z.to_nat (drive_number drive - 1)) ""
                  (split "|" hash)).
  assert (split "|" (join "|" files) = files) as ->.
  { destruct (array_set_cons "" "" (Z.to_nat (drive_number drive - 1))
                (split "|" hash)) as (first & others & Hfiles).
    pose proof (array_set_free "|" (Z.to_nat (drive_number drive - 1))
                  (split "|" hash) (split_free "|" hash)) as Hfree.
    fold files in Hfiles, Hfree. rewrite Hfiles in *.
    by apply split_join. }
  split; [done|]. split.
  - apply array_set_lookup.
  - intros j Hj Hlt. by apply array_set_lookup_ne.
Qed.

End FragmentOfLoad.

Section ProcessHash.
Import UI.
Context `{Page} `{Imports}.

Lemma process_entry_length drive file : length (process_entry drive file) ≤ 1.
Proof.
  unfold process_entry.
  destruct (String.index 0 "://" file) as [[|n]|];
    repeat case_bool_decide; cbn; lia.
Qed.

Lemma process_entry_drive drive file a :
  a ∈ process_entry drive file →
  ∃ url, a = LoadAjax drive url ∨ a = LoadHTTP drive url.
Proof.
  unfold process_entry.
  destruct (String.index 0 "://" file) as [[|n]|];
    repeat case_bool_decide; cbn; intros Ha;
    first [ by apply elem_of_nil in Ha
          | apply list_elem_of_singleton in Ha as ->; eauto ].
Qed.

Lemma process_from_start files :
  process_from 0 files =
  match files with
  | [] => []
  | first :: rest =>
      if bool_decide (1%Z ∈ DRIVE_NUMBERS) then
        process_entry 1 first ++
        match rest with
        | [] => []
        | second :: _ =>
            if bool_decide (2%Z ∈ DRIVE_NUMBERS)
            then process_entry 2 second else []
        end
      else []
  end.
Proof.
  destruct files as [|f0 [|f1 rest]]; cbn [process_from]; [done| |].
  - rewrite (bool_decide_eq_true_2 (0 < 2)) by lia.
    change (Z.of_nat 0 + 1)%Z with 1%Z. done.
  - rewrite (bool_decide_eq_true_2 (0 < 2)), (bool_decide_eq_true_2 (1 < 2))
      by lia.
    change (Z.of_nat 0 + 1)%Z with 1%Z. change (Z.of_nat 1 + 1)%Z with 2%Z.
    destruct (bool_decide (1%Z ∈ DRIVE_NUMBERS)); [|done].
    destruct (bool_decide (2%Z ∈ DRIVE_NUMBERS)); [|done].
    destruct rest; cbn [process_from].
    + by rewrite app_nil_r.
    + rewrite (bool_decide_eq_false_2 (2 < 2)) by lia. by rewrite app_nil_r.
Qed.

(** X15: [processHash] starts at most two loads, each a JSON or an HTTP
    load for drive 1 or 2 and for a drive in [DRIVE_NUMBERS]; with 1 and 2
    in [DRIVE_NUMBERS] they are what the first entry gives for drive 1
    followed by what the second gives for drive 2, and entries after the
    second are not looked at. *)
Theorem processHash_two_drives (hash : string) :
  length (processHash hash) ≤ 2 ∧
  (∀ a, a ∈ processHash hash →
     ∃ drive url, (a = LoadAjax drive url ∨ a = LoadHTTP drive url) ∧
       (drive = 1 ∨ drive = 2)%Z ∧ drive ∈ DRIVE_NUMBERS) ∧
  (1%Z ∈ DRIVE_NUMBERS → 2%Z ∈ DRIVE_NUMBERS →
   processHash hash =
   match split "|" hash with
   | [] => []
   | [first] => process_entry 1 first
   | first :: second :: _ => process_entry 1 first ++ process_entry 2 second
   end).
Proof.
  unfold processHash. rewrite process_from_start.
  generalize (split "|" hash) as files. intros files.
  split_and!.
  - destruct files as [|f0 [|f1 files]]; [cbn; lia| |];
      repeat case_bool_decide; rewrite ?length_app; cbn [length];
      pose proof (process_entry_length 1 f0);
      try pose proof (process_entry_length 2 f1); lia.
  - intros a. destruct files as [|f0 [|f1 files]];
      repeat case_bool_decide; rewrite ?elem_of_app, ?elem_of_nil;
      try tauto.
    all: intros Ha;
      repeat match goal with Ha : _ ∨ _ |- _ => destruct Ha as [Ha|Ha] end;
      try done;
      destruct (process_entry_drive _ _ _ Ha) as [url Hu];
      eexists _, url; split_and!; eauto.
  - intros H1 H2. destruct files as [|f0 [|f1 files]]; [done| |];
      rewrite !bool_decide_eq_true_2 by done; [by rewrite app_nil_r|done].
Qed.

End ProcessHash.

Section ProcessHashExample.
Import UI.

Lemma processHash_two_drives_witness :
  (1%Z ∈ @DRIVE_NUMBERS LoadExamples.imports) ∧
  (2%Z ∈ @DRIVE_NUMBERS LoadExamples.imports) ∧
  @processHash PageExamples.page LoadExamples.imports
    "dos33|https://example.org/a.po|ignored" =
  [LoadAjax 1 "json/disks/dos33.json"; LoadHTTP 2 "https://example.org/a.po"].
Proof.
  assert (1%Z ∈ @DRIVE_NUMBERS LoadExamples.imports) as H1
    by (apply (bool_decide_unpack _); vm_compute; exact I).
  assert (2%Z ∈ @DRIVE_NUMBERS LoadExamples.imports) as H2
    by (apply (bool_decide_unpack _); vm_compute; exact I).
  split; [exact H1|]. split; [exact H2|].
  rewrite (proj2 (proj2 (@processHash_two_drives PageExamples.page LoadExamples.imports
                           "dos33|https://example.org/a.po|ignored")) H1 H2).
  reflexivity.
Defined.

End ProcessHashExample.

Section FragmentExample.
Import UI.

Lemma doLoadLocalDisk_fragment_witness :
  ∃ fragment,
    @doLoadLocalDisk PageExamples.page Drive1 "game.dsk" "old|other" []
      !! 1 = Some (SetHash fragment) ∧
    split "|" fragment !! 0 = Some EmptyString ∧
    split "|" fragment !! 1 = Some "other".
Proof.
  destruct (@doLoadLocalDisk_fragment PageExamples.page Drive1 "game.dsk"
              "old|other" []) as (fragment & Hset & _ & Hown & Hother).
  exists fragment. split; [exact Hset|]. split; [exact Hown|].
  rewrite (Hother 1); [reflexivity | discriminate | cbn; lia].
Defined.

End FragmentExample.

(** ** The loading indicator and the alert *)

Section Indicator.
Import UI.
Context `{Page}.

(** X16: each of the two disk loaders closes the loading indicator once,
    on every path; it shows an alert exactly when the image is under
    800 x 1024 bytes and its extension is no disk format or Disk II
    refuses it (over HTTP also when the file name does not decode).  An
    image that SmartPort refuses gives no alert. *)
Theorem loaders_stop_and_alert (drive : DriveNumber) :
  (∀ file_name hash result,
     let effects := doLoadLocalDisk drive file_name hash result in
     List.filter is_stop effects = [LoadingStop] ∧
     List.last effects LoadingStart = LoadingStop ∧
     List.filter is_alert effects =
       if bool_decide (large result) then []
       else if bool_decide (ext_of file_name ∈ DISK_FORMATS)
                 && disk2_setBinary drive (name_of file_name)
                      (ext_of file_name) result
            then []
            else [OpenAlert ("Unable to load " +:+ name_of file_name)]) ∧
  (∀ url chunks,
     let effects := doLoadHTTP drive url chunks in
     List.filter is_stop effects = [LoadingStop] ∧
     List.filter is_alert effects =
       match decodeURIComponent (name_of (file_of url)) with
       | inr msg => [OpenAlert msg]
       | inl name =>
           if bool_decide (large (concat chunks)) then []
           else if bool_decide (ext_of (file_of url) ∈ DISK_FORMATS)
                     && disk2_setBinary drive name (ext_of (file_of url))
                          (concat chunks)
                then []
                else [OpenAlert ("Extension " +:+ ext_of (file_of url)
                                 +:+ " not recognized.")]
       end).
Proof.
  split.
  - intros file_name hash result. cbn zeta.
    unfold doLoadLocalDisk, ext_of, name_of, includes.
    destruct (pop (split "." file_name)) as [last parts]; cbn [fst snd].
    rewrite large_threshold.
    destruct (bool_decide (large result)); cbn.
    + destruct (smartPort_setBinary _ _ _ _); done.
    + destruct (bool_decide (toLowerCase last ∈ DISK_FORMATS)); cbn; [|done].
      destruct (disk2_setBinary _ _ _ _); done.
  - intros url chunks. cbn zeta.
    unfold doLoadHTTP, ext_of, name_of, file_of, includes.
    destruct (pop (split "/" url)) as [file rest]; cbn [fst snd].
    destruct (pop (split "." file)) as [last parts]; cbn [fst snd].
    destruct (decodeURIComponent _) as [name|msg]; [|done].
    rewrite large_threshold.
    destruct (bool_decide (large (concat chunks))); cbn.
    + destruct (smartPort_setBinary _ _ _ _); done.
    + destruct (bool_decide (toLowerCase last ∈ DISK_FORMATS)); cbn; [|done].
      destruct (disk2_setBinary _ _ _ _); done.
Qed.

End Indicator.

(** ** The pause button *)

Section Pause.
Import Apple2.

Lemma session_ok_loaded raf e multi cpu0 io0 mmu0 has_hash date_now :
  session_ok (Session.onLoaded has_hash date_now
                (boot raf (new e multi cpu0 io0 mmu0))).
Proof.
  split; [|discriminate]. cbn.
  destruct has_hash;
    [apply scheduled_stop | apply scheduled_run]; apply scheduled_boot.
Qed.

Lemma session_ok_react s e : session_ok s → session_ok (Session.react e s).
Proof.
  intros [Hs Hp]. destruct e as [d|d|e]; cbn.
  - unfold Session.pauseRun. destruct (Session.paused s); cbn.
    + split; [by apply scheduled_run|discriminate].
    + split; [by apply scheduled_stop|]. intros _. by apply stop_idle.
  - unfold Session.loadingStop. destruct (Session.paused s) eqn:Hpaused; cbn.
    + split; [done|]. intros _. by apply Hp.
    + split; [by apply scheduled_run|]. discriminate.
  - destruct e as [d| |state|id obs|id obs|hw]; [by split | by split | ..].
    all: unfold session_ok;
      cbn [Session.react Session.emulator Session.paused].
    all: match goal with
         | |- scheduled (exec (react ?e) _) ∧ _ =>
             split; [exact (scheduled_react e _ Hs eq_refl)|];
             intros Hpaused; exact (idle_react e _ (Hp Hpaused) eq_refl)
         end.
Qed.

Lemma reachable_session_ok s : Session.reachable s → session_ok s.
Proof.
  induction 1; [apply session_ok_loaded | by apply session_ok_react].
Qed.

(** X17: while the page is paused the emulator has nothing scheduled and
    no event is a tick, also after a load has finished; the pause button
    pressed on a paused page leaves the emulator running with one callback
    scheduled, and pressed on a running page leaves it stopped. *)
Theorem paused_means_stopped (s : Session.t) :
  Session.reachable s →
  (Session.paused s = true →
   sources (Session.emulator s) = 0 ∧
   (∀ e, is_tick e (Session.emulator s) = false) ∧
   ∀ date_now,
     Session.emulator (Session.react (Session.LoadingStop date_now) s) =
     Session.emulator s) ∧
  (∀ date_now,
     let s' := Session.react (Session.PauseRun date_now) s in
     Session.paused s' = negb (Session.paused s) ∧
     sources (Session.emulator s') = if Session.paused s then 1 else 0).
Proof.
  intros Hr. pose proof (reachable_session_ok s Hr) as [Hs Hp]. split.
  - intros Hpaused. pose proof (Hp Hpaused) as Hi. split_and!.
    + destruct Hi as (_ & _ & Hfr & Hiv). unfold sources.
      by rewrite Hfr, Hiv.
    + intros e. unfold is_tick. rewrite (idle_no_tick e _ Hi).
      apply bool_decide_eq_false_2. intros [? [=]].
    + intros d. cbn. unfold Session.loadingStop. by rewrite Hpaused.
  - intros d. cbn. split; [done|].
    destruct (Session.paused s) eqn:Hpaused.
    + destruct (run_busy d _ Hs) as (_ & _ & _ & Hb).
      pose proof (scheduled_run d _ Hs) as Hs'.
      destruct (scheduled_sources _ Hs') as [[Hi _] | [H1 _]]; [|done].
      destruct Hb as [Hf | Hv].
      * destruct Hf as (_ & _ & _ & id & cid & _ & _ & Hrf & _).
        destruct Hi as (_ & Hrf' & _). congruence.
      * destruct Hv as (_ & _ & _ & id & cid & _ & _ & Hrt & _).
        destruct Hi as (Hrt' & _). congruence.
    + destruct (stop_idle _ Hs) as (_ & _ & Hfr & Hiv). unfold sources.
      by rewrite Hfr, Hiv.
Qed.

Lemma paused_means_stopped_witness :
  Session.reachable SessionExamples.paused_page ∧
  Session.paused SessionExamples.paused_page = true ∧
  sources (Session.emulator SessionExamples.paused_page) = 0 ∧
  Session.emulator
    (Session.react (Session.LoadingStop 7000) SessionExamples.paused_page) =
  Session.emulator SessionExamples.paused_page.
Proof.
  assert (Session.reachable SessionExamples.paused_page) as Hr
    by (apply Session.reachable_react, Session.reachable_loaded).
  split; [exact Hr|]. split; [reflexivity|].
  destruct (proj1 (paused_means_stopped SessionExamples.paused_page Hr)
              eq_refl) as (Hz & _ & Hload).
  split; [exact Hz | exact (Hload 7000%Z)].
Defined.

End Pause.
